(** * Visited Link Highlighter: URL normalisation and history matching

    A shallow embedding of [utils/url-normalizer.js] (the [UrlNormalizer]
    module) and of the matching half of [background/service-worker.js]
    ([queryHistoryByDomain], [checkVisitedUrls], [handleCheckVisited]).

    JavaScript strings are modelled by [string]; one [ascii] stands for one
    code unit.  The browser's [URL] class, [URLSearchParams] and
    [String.prototype.toLowerCase] are platform code: the URL record, its
    getters, its setters and its serializer follow the URL Standard, while
    the parsers are operations of a [Platform]. *)

From Stdlib Require Import Ascii.
From stdpp Require Import base option list strings gmap sorting.

#[local] Set Warnings "-clear-no-such-hyp".

(** ** Completions: a JavaScript call returns a value or throws *)

Inductive JsError : Type :=
  | TypeError (msg : string).

Inductive completion (A : Type) : Type :=
  | Return (a : A)
  | Throw (e : JsError).
Arguments Return {A} a.
Arguments Throw {A} e.

#[global] Instance completion_ret : MRet completion := @Return.

#[global] Instance completion_bind : MBind completion := λ A B k c,
  match c with
  | Return a => k a
  | Throw e => Throw e
  end.

(** [try { body } catch (e) { handler e }] *)
Definition try_catch {A} (body : completion A) (handler : JsError → completion A)
    : completion A :=
  match body with
  | Return a => Return a
  | Throw e => handler e
  end.

(** ** The URL Standard's URL record

    The [URL] class is the browser's: the record, the serializer, the getters
    and the setters below are modelled from the URL Standard.  The path is
    kept as the serializer writes it. *)

Record URLRecord : Type := mkURL {
  scheme : string;
  username : string;
  password : string;
  host : option string;    (* serialized host; [None] is the null host *)
  port : option string;    (* [None] is the null (default) port *)
  path : string;           (* serialized path *)
  query : option string;
  fragment : option string
}.

Definition set_query (q : option string) (r : URLRecord) : URLRecord :=
  mkURL (scheme r) (username r) (password r) (host r) (port r) (path r)
        q (fragment r).

Definition set_fragment (f : option string) (r : URLRecord) : URLRecord :=
  mkURL (scheme r) (username r) (password r) (host r) (port r) (path r)
        (query r) f.

Definition prefixed (mark : string) (o : option string) : string :=
  match o with
  | Some s => mark +:+ s
  | None => ""
  end.

Definition includes_credentials (r : URLRecord) : bool :=
  negb (bool_decide (username r = "") && bool_decide (password r = "")).

(** The URL serializer (fragment included): the [href] of a URL. *)
Definition serialize_url (r : URLRecord) : string :=
  scheme r +:+ ":" +:+
  match host r with
  | Some h =>
      "//" +:+
      (if includes_credentials r
       then username r +:+
            (if bool_decide (password r = "") then "" else ":" +:+ password r)
            +:+ "@"
       else "") +:+
      h +:+ prefixed ":" (port r)
  | None => ""
  end +:+
  path r +:+ prefixed "?" (query r) +:+ prefixed "#" (fragment r).

(** ** Platform operations *)

Definition param : Type := string * string.

Class Platform : Type := {
  (** the basic URL parser on an absolute input; [None] is failure *)
  url_parse : string → option URLRecord;
  (** the application/x-www-form-urlencoded parser and serializer *)
  urlencoded_parse : string → list param;
  urlencoded_serialize : list param → string;
  (** [String.prototype.toLowerCase] *)
  toLowerCase : string → string
}.

(** ** [URLSearchParams.prototype.sort]: stable, by name, comparing code units

    An insertion sort that puts a parameter before the first one whose name
    is not smaller: parameters of equal names keep their order. *)

Fixpoint insert_by_name (p : param) (l : list param) : list param :=
  match l with
  | [] => [p]
  | q :: l' =>
      if String.leb p.1 q.1 then p :: q :: l' else q :: insert_by_name p l'
  end.

Definition stable_sort (l : list param) : list param :=
  foldr insert_by_name [] l.

(** ** The [URL] object: a URL record and the list of its query object *)

Record URLObject : Type := mkObj {
  url_of : URLRecord;
  params_of : list param
}.

Section normalizer.
Context `{!Platform}.

(** The list a query object starts with. *)
Definition query_list (r : URLRecord) : list param :=
  match query r with
  | Some q => urlencoded_parse q
  | None => []
  end.

(** [new URL(url)] *)
Definition new_URL (url : string) : completion URLObject :=
  match url_parse url with
  | Some r => Return (mkObj r (query_list r))
  | None => Throw (TypeError "Invalid URL")
  end.

Definition get_protocol (o : URLObject) : string := scheme (url_of o) +:+ ":".

Definition get_hostname (o : URLObject) : string := default "" (host (url_of o)).

(** The [hash] getter: empty when the fragment is null or empty. *)
Definition get_hash (o : URLObject) : string :=
  match fragment (url_of o) with
  | None => ""
  | Some f => if bool_decide (f = "") then "" else "#" +:+ f
  end.

(** The [hash] setter applied to the empty string: the fragment becomes null. *)
Definition clear_hash (o : URLObject) : URLObject :=
  mkObj (set_fragment None (url_of o)) (params_of o).

Definition toString (o : URLObject) : string := serialize_url (url_of o).

(** The update steps of a query object. *)
Definition update (o : URLObject) : URLObject :=
  let serializedQuery := urlencoded_serialize (params_of o) in
  mkObj (set_query (if bool_decide (serializedQuery = "") then None
                    else Some serializedQuery) (url_of o))
        (params_of o).

Definition searchParams_keys (o : URLObject) : list string := (params_of o).*1.

Definition searchParams_delete (name : string) (o : URLObject) : URLObject :=
  update (mkObj (url_of o) (filter (λ p : param, p.1 ≠ name) (params_of o))).

Definition searchParams_sort (o : URLObject) : URLObject :=
  update (mkObj (url_of o) (stable_sort (params_of o))).

(** ** UrlNormalizer *)

Definition VALID_PROTOCOLS : list string := ["http:"; "https:"].

Definition includes (l : list string) (s : string) : bool := bool_decide (s ∈ l).

Definition normalizeUrl_body (url : string) (ignoreParams : list string)
    : completion string :=
  urlObj ← new_URL url;
  if negb (includes VALID_PROTOCOLS (get_protocol urlObj)) then Return url
  else
    let urlObj :=
      if bool_decide (0 < length ignoreParams) then
        let ignoreSet : gset string := list_to_set (toLowerCase <$> ignoreParams) in
        let keysToDelete :=
          filter (λ key, toLowerCase key ∈ ignoreSet) (searchParams_keys urlObj) in
        foldl (λ o key, searchParams_delete key o) urlObj keysToDelete
      else urlObj in
    let urlObj := searchParams_sort urlObj in
    (* Remove trailing hash if empty *)
    let urlObj :=
      if bool_decide (get_hash urlObj = "#") then clear_hash urlObj else urlObj in
    Return (toString urlObj).

Definition normalizeUrl_c (url : string) (ignoreParams : list string)
    : completion string :=
  try_catch (normalizeUrl_body url ignoreParams) (λ e, Return url).

(** The value [normalizeUrl] hands to its callers. *)
Definition normalizeUrl (url : string) (ignoreParams : list string) : string :=
  match normalizeUrl_c url ignoreParams with
  | Return s => s
  | Throw _ => url
  end.

Definition extractDomain_c (url : string) : completion (option string) :=
  try_catch (urlObj ← new_URL url; Return (Some (get_hostname urlObj)))
            (λ e, Return None).

(** [None] is JavaScript's [null]. *)
Definition extractDomain (url : string) : option string :=
  match extractDomain_c url with
  | Return d => d
  | Throw _ => None
  end.

Definition isValidHttpUrl_c (url : string) : completion bool :=
  try_catch (urlObj ← new_URL url;
             Return (includes VALID_PROTOCOLS (get_protocol urlObj)))
            (λ e, Return false).

Definition isValidHttpUrl (url : string) : bool :=
  match isValidHttpUrl_c url with
  | Return b => b
  | Throw _ => false
  end.

End normalizer.

(** ** JavaScript [Map] and [Set], in insertion order *)

Module JsMap.

Definition t (V : Type) : Type := list (string * V).

Definition has {V} (k : string) (m : t V) : bool := bool_decide (k ∈ m.*1).

Fixpoint get {V} (k : string) (m : t V) : option V :=
  match m with
  | [] => None
  | (k', v) :: m' => if decide (k' = k) then Some v else get k m'
  end.

(** [set] keeps the position of a key that is present and appends a new one. *)
Fixpoint set {V} (k : string) (v : V) (m : t V) : t V :=
  match m with
  | [] => [(k, v)]
  | (k', v') :: m' =>
      if decide (k' = k) then (k, v) :: m' else (k', v') :: set k v m'
  end.

(** [if (!m.has(k)) m.set(k, []); m.get(k).push(x)]: the array stored under
    [k] is extended in place. *)
Definition push (k : string) (x : string) (m : t (list string)) : t (list string) :=
  let m := if negb (has k m) then set k [] m else m in
  match get k m with
  | Some xs => set k (xs ++ [x]) m
  | None => m
  end.

End JsMap.

Module JsSet.

Definition t : Type := list string.

Definition has (x : string) (s : t) : bool := bool_decide (x ∈ s).

Definition add (x : string) (s : t) : t := if has x s then s else s ++ [x].

End JsSet.

(** ** chrome.storage.sync and chrome.history *)

Record Config : Type := mkConfig {
  enabled : bool;
  ignoreParams : list string;
  highlightTextColor : string
}.

Definition DEFAULT_CONFIG : Config := mkConfig true [] "#C58AF9".

(** What the sync storage area holds: a key that was never written is absent. *)
Record Storage : Type := mkStorage {
  stored_enabled : option bool;
  stored_ignoreParams : option (list string);
  stored_highlightTextColor : option string
}.

(** [chrome.storage.sync.get(defaults, cb)] *)
Definition storage_get (defaults : Config) (st : Storage) : Config :=
  mkConfig (default (enabled defaults) (stored_enabled st))
           (default (ignoreParams defaults) (stored_ignoreParams st))
           (default (highlightTextColor defaults) (stored_highlightTextColor st)).

Definition getConfig (st : Storage) : Config := storage_get DEFAULT_CONFIG st.

Record HistoryItem : Type := mkItem {
  item_url : string;
  item_title : string
}.

Record HistoryQuery : Type := mkQuery {
  text : string;
  maxResults : N;
  startTime : N
}.

(** The history store answers a search through its callback: [Some results],
    or [None] when the search failed, in which case the callback runs
    without results ([chrome.runtime.lastError] is set). *)
Definition HistoryStore : Type := HistoryQuery → option (list HistoryItem).

(** [queryHistoryByDomain]: the URLs the promise resolves with, and the
    search issued. *)
Definition queryHistoryByDomain (hs : HistoryStore) (domain : string)
    : list string * list HistoryQuery :=
  let q := mkQuery domain 10000%N 0%N in
  (match hs q with
   | Some results => item_url <$> results
   | None => []
   end, [q]).

Section matcher.
Context `{!Platform}.

(** One iteration of the grouping loop over [domainGroups] and
    [urlToOriginals]. *)
Definition group_step (ignoreParams : list string)
    (st : JsMap.t (list string) * JsMap.t (list string)) (url : string)
    : JsMap.t (list string) * JsMap.t (list string) :=
  if negb (isValidHttpUrl url) then st
  else
    match extractDomain url with
    | None => st
    | Some domain =>
        if bool_decide (domain = "") then st
        else
          let domainGroups := JsMap.push domain url st.1 in
          let normalized := normalizeUrl url ignoreParams in
          let urlToOriginals := JsMap.push normalized url st.2 in
          (domainGroups, urlToOriginals)
    end.

Definition group_urls (urls ignoreParams : list string)
    : JsMap.t (list string) * JsMap.t (list string) :=
  foldl (group_step ignoreParams) ([], []) urls.

Definition domainGroups (urls ignoreParams : list string) : JsMap.t (list string) :=
  (group_urls urls ignoreParams).1.

(** The [then] callback of one domain query, run on the shared
    [visitedOriginalUrls] set. *)
Definition on_history (ignoreParams domainUrls historyUrls : list string)
    (visitedOriginalUrls : JsSet.t) : JsSet.t :=
  let normalizedHistory : gset string :=
    foldl (λ s hUrl, s ∪ {[ normalizeUrl hUrl ignoreParams ]}) ∅ historyUrls in
  foldl (λ visited pageUrl,
           if bool_decide (normalizeUrl pageUrl ignoreParams ∈ normalizedHistory)
           then JsSet.add pageUrl visited else visited)
        visitedOriginalUrls domainUrls.

(** [checkVisitedUrls].  The queries are issued in the order of
    [domainGroups]; their callbacks run one at a time in the order in which
    the history store answers, [order] (positions in [domainGroups]).  The
    result is the array of the visited set and the searches issued. *)
Definition checkVisitedUrls (hs : HistoryStore) (urls ignoreParams : list string)
    (order : list nat) : list string * list HistoryQuery :=
  let domainQueries : list (_ * list string) :=
    (λ g : string * list string, (queryHistoryByDomain hs g.1, g.2))
      <$> domainGroups urls ignoreParams in
  let answered := omap (λ i, domainQueries !! i) order in
  (foldl (λ visited (a : _ * list string), on_history ignoreParams a.2 a.1.1 visited)
         [] answered,
   mjoin ((λ a : _ * list string, a.1.2) <$> domainQueries)).

Record Response : Type := mkResponse {
  visitedUrls : list string;
  config : Config;
  error : option string
}.

Definition error_message (e : JsError) : string :=
  match e with TypeError msg => msg end.

(** [handleCheckVisited]; [urls] is [message.urls], absent when [None]. *)
Definition handleCheckVisited (st : Storage) (hs : HistoryStore)
    (urls : option (list string)) (order : list nat)
    : completion (Response * list HistoryQuery) :=
  try_catch
    (let config := getConfig st in
     if negb (enabled config) then Return (mkResponse [] config None, [])
     else
       r ← Return (checkVisitedUrls hs (default [] urls) (ignoreParams config) order);
       Return (mkResponse r.1 config None, r.2))
    (λ e, Return (mkResponse [] DEFAULT_CONFIG (Some (error_message e)), [])).

End matcher.

(** ** A reference platform

    An executable [Platform] covering a fragment of the URL Standard on which
    no percent-encoding, host rewriting or path shortening takes place:
    inputs [scheme://host/path?query#fragment] over plain printable
    characters, with a lower-case scheme, a host of lower-case letters and
    dots that ends in a letter, no port, no credentials and no dot segment,
    and [scheme:path] for the schemes that are not special.  Every other
    input is rejected.  Form-urlencoding is implemented in full on code
    units. *)

Module RefPlatform.

Definition code (c : ascii) : N := N_of_ascii c.

Definition in_range (lo hi c : ascii) : bool :=
  ((code lo <=? code c) && (code c <=? code hi))%N.

Definition is_lower (c : ascii) : bool := in_range "a" "z" c.
Definition is_upper (c : ascii) : bool := in_range "A" "Z" c.
Definition is_digit (c : ascii) : bool := in_range "0" "9" c.

Definition lower_ascii (c : ascii) : ascii :=
  if is_upper c then ascii_of_N (code c + 32) else c.

Fixpoint string_map (f : ascii → ascii) (s : string) : string :=
  match s with
  | EmptyString => EmptyString
  | String c s' => String (f c) (string_map f s')
  end.

Fixpoint string_forallb (f : ascii → bool) (s : string) : bool :=
  match s with
  | EmptyString => true
  | String c s' => f c && string_forallb f s'
  end.

Definition ascii_toLowerCase (s : string) : string := string_map lower_ascii s.

(** [cut c s] splits [s] at the first [c]. *)
Fixpoint cut (c : ascii) (s : string) : string * option string :=
  match s with
  | EmptyString => (EmptyString, None)
  | String a s' =>
      if bool_decide (a = c) then (EmptyString, Some s')
      else let r := cut c s' in (String a r.1, r.2)
  end.

Fixpoint split_on (c : ascii) (s : string) : list string :=
  match s with
  | EmptyString => [EmptyString]
  | String a s' =>
      if bool_decide (a = c) then EmptyString :: split_on c s'
      else match split_on c s' with
           | [] => [String a EmptyString]
           | w :: ws => String a w :: ws
           end
  end.

Fixpoint join (sep : string) (l : list string) : string :=
  match l with
  | [] => ""
  | [w] => w
  | w :: ws => w +:+ sep +:+ join sep ws
  end.

(** *** application/x-www-form-urlencoded *)

Definition hex_digit (n : N) : ascii :=
  if (n <? 10)%N then ascii_of_N (48 + n) else ascii_of_N (55 + n).

Definition hex_value (c : ascii) : option N :=
  if is_digit c then Some (code c - 48)%N
  else if in_range "A" "F" c then Some (code c - 55)%N
  else if in_range "a" "f" c then Some (code c - 87)%N
  else None.

(** Code units the serializer leaves as they are. *)
Definition urlencoded_safe (c : ascii) : bool :=
  is_lower c || is_upper c || is_digit c ||
  bool_decide (c = "*"%char) || bool_decide (c = "-"%char) ||
  bool_decide (c = "."%char) || bool_decide (c = "_"%char).

Definition encode_unit (c : ascii) : string :=
  if bool_decide (c = " "%char) then "+"
  else if urlencoded_safe c then String c ""
  else String "%" (String (hex_digit (code c / 16))
                     (String (hex_digit (code c mod 16)) "")).

Fixpoint percent_encode (s : string) : string :=
  match s with
  | EmptyString => ""
  | String c s' => encode_unit c +:+ percent_encode s'
  end.

Fixpoint percent_decode (s : string) : string :=
  match s with
  | EmptyString => ""
  | String c s' =>
      if bool_decide (c = "+"%char) then String " " (percent_decode s')
      else if bool_decide (c = "%"%char) then
        match s' with
        | String h (String l rest) =>
            match hex_value h, hex_value l with
            | Some a, Some b => String (ascii_of_N (16 * a + b)) (percent_decode rest)
            | _, _ => String c (percent_decode s')
            end
        | _ => String c (percent_decode s')
        end
      else String c (percent_decode s')
  end.

Definition parse_pair (piece : string) : param :=
  let r := cut "=" piece in
  (percent_decode r.1, percent_decode (default "" r.2)).

Definition ref_urlencoded_parse (s : string) : list param :=
  parse_pair <$> filter (λ piece, piece ≠ "") (split_on "&" s).

Definition serialize_pair (p : param) : string :=
  percent_encode p.1 +:+ "=" +:+ percent_encode p.2.

Definition ref_urlencoded_serialize (l : list param) : string :=
  join "&" (serialize_pair <$> l).

(** *** The URL parser on the fragment *)

(** Printable code units that no percent-encode set of the standard touches
    and that the parser does not rewrite. *)
Definition plain (c : ascii) : bool :=
  in_range "!" "~" c &&
  negb (bool_decide (c ∈ ["034"; "'"; "<"; ">"; "\"; "^"; "`"; "{"; "|"; "}"]%char)).

Definition valid_scheme (s : string) : bool :=
  match s with
  | EmptyString => false
  | String c s' =>
      is_lower c &&
      string_forallb (λ a, is_lower a || is_digit a ||
                           bool_decide (a ∈ ["+"; "-"; "."]%char)) s'
  end.

Fixpoint ends_in_letter (s : string) : bool :=
  match s with
  | EmptyString => false
  | String c EmptyString => is_lower c
  | String _ s' => ends_in_letter s'
  end.

Definition valid_host (s : string) : bool :=
  string_forallb (λ a, is_lower a || bool_decide (a = "."%char)) s &&
  ends_in_letter s.

(** No segment starts with a dot or a percent sign. *)
Fixpoint no_dot_segment (s : string) : bool :=
  match s with
  | EmptyString => true
  | String a s' =>
      (if bool_decide (a = "/"%char) then
         match s' with
         | String c _ => negb (bool_decide (c ∈ ["."; "%"]%char))
         | EmptyString => true
         end
       else true) && no_dot_segment s'
  end.

Definition SPECIAL_SCHEMES : list string :=
  ["ftp"; "file"; "http"; "https"; "ws"; "wss"].

Definition is_special (s : string) : bool := bool_decide (s ∈ SPECIAL_SCHEMES).

(** [Some authority] when [s] is ["//" +:+ authority]. *)
Definition after_slashes (s : string) : option string :=
  match s with
  | String a (String b authority) =>
      if bool_decide (a = "/"%char) && bool_decide (b = "/"%char)
      then Some authority else None
  | _ => None
  end.

Definition ref_url_parse (input : string) : option URLRecord :=
  let f := cut "#" input in
  let q := cut "?" f.1 in
  let s := cut ":" q.1 in
  match s.2 with
  | Some rest =>
      if valid_scheme s.1 && string_forallb plain input && no_dot_segment rest then
        match after_slashes rest with
        | Some authority =>
            let h := cut "/" authority in
            if valid_host h.1 then
              Some (mkURL s.1 "" "" (Some h.1) None
                          (match h.2 with
                           | Some p => String "/" p
                           | None => if is_special s.1 then "/" else ""
                           end)
                          q.2 f.2)
            else None
        | None =>
            if is_special s.1 then None
            else Some (mkURL s.1 "" "" None None rest q.2 f.2)
        end
      else None
  | None => None
  end.

(** [c] occurs in [s]. *)
Fixpoint occurs (c : ascii) (s : string) : bool :=
  match s with
  | EmptyString => false
  | String a s' => bool_decide (a = c) || occurs c s'
  end.

(** The code units the serializer writes for a name or a value. *)
Definition encoded_unit (c : ascii) : bool :=
  urlencoded_safe c || bool_decide (c = "+"%char) || bool_decide (c = "%"%char).

Definition opt_forallb (P : string → bool) (o : option string) : bool :=
  match o with
  | Some s => P s
  | None => true
  end.

(** The part of an http(s) URL before its query. *)
Definition origin_path (sch h p : string) : string :=
  sch +:+ String ":" (String "/" (String "/" (h +:+ String "/" p))).

#[export] Instance ref_platform : Platform := {|
  url_parse := ref_url_parse;
  urlencoded_parse := ref_urlencoded_parse;
  urlencoded_serialize := ref_urlencoded_serialize;
  toLowerCase := ascii_toLowerCase
|}.

End RefPlatform.

(** * The rest of the background worker: messages, cache, tab events *)

(** [s.startsWith(p)] *)
Definition startsWith (s p : string) : bool := String.prefix p s.

(** [s.includes(needle)] *)
Fixpoint str_includes (s needle : string) : bool :=
  String.prefix needle s ||
  match s with
  | EmptyString => false
  | String _ s' => str_includes s' needle
  end.

(** A tab as [chrome.tabs] reports it; [id] and [url] may be missing. *)
Record Tab : Type := mkTab {
  tab_id : option nat;
  tab_url : option string
}.

(** [tab.id && tab.url && !tab.url.startsWith('chrome://')]: the id [0], a
    missing id, a missing URL and the empty URL are falsy. *)
Definition notifiable (tab : Tab) : bool :=
  match tab_id tab, tab_url tab with
  | Some i, Some u =>
      negb (bool_decide (i = 0)) && negb (bool_decide (u = ""))
      && negb (startsWith u "chrome://")
  | _, _ => false
  end.

(** A message posted to a tab: the tab, the action, and how the promise of
    [chrome.tabs.sendMessage] settled after its [catch]. *)
Record TabMessage : Type := mkTabMessage {
  to_tab : nat;
  tab_action : string;
  settled : completion unit
}.

(** [chrome.tabs.sendMessage(id, { action }).catch(() => {})] *)
Definition send_and_forget (deliver : nat → completion unit) (id : nat)
    (action : string) : TabMessage :=
  mkTabMessage id action (try_catch (deliver id) (λ e, Return ())).

(** [notifyAllTabs]: [tabs_query] is what [chrome.tabs.query({})] settles
    with.  The messages posted, and whether the function threw. *)
Definition notifyAllTabs (tabs_query : completion (list Tab))
    (deliver : nat → completion unit) : completion (list TabMessage) :=
  try_catch
    (tabs ← tabs_query;
     Return (foldl (λ posted tab,
                      if notifiable tab
                      then posted ++ [send_and_forget deliver (default 0 (tab_id tab))
                                                     "refreshHighlights"]
                      else posted)
                   [] tabs))
    (λ e, Return []).

(** The runtime message and its sender. *)
Record Message : Type := mkMessage {
  msg_action : string;
  msg_urls : option (list string)
}.

Record Sender : Type := mkSender {
  sender_tab : option Tab
}.

(** What [sendResponse] is called with. *)
Inductive Payload : Type :=
  | VisitedPayload (r : Response)
  | ConfigPayload (c : Config)
  | SuccessPayload.

(** [historyCache]: a [Map] keyed by tab id. *)
Definition HistoryCache : Type := gmap nat (list string).

(** What the environment answers during one event. *)
Record World : Type := mkWorld {
  w_storage : Storage;
  w_history : HistoryStore;
  w_order : list nat;
  w_tabs : completion (list Tab);             (* chrome.tabs.query({}) *)
  w_get : nat → completion (option Tab);      (* chrome.tabs.get(id) *)
  w_deliver : nat → completion unit           (* chrome.tabs.sendMessage *)
}.

(** What one event does besides changing the cache. *)
Record Effects : Type := mkEffects {
  responses : list Payload;
  posted : list TabMessage;
  searches : list HistoryQuery;
  keeps_channel : bool      (* the listener returned [true] *)
}.

Definition no_effects : Effects := mkEffects [] [] [] false.

Section background.
Context `{!Platform}.

(** The [chrome.runtime.onMessage] listener. *)
Definition onMessage (w : World) (message : Message) (sender : Sender)
    (historyCache : HistoryCache) : HistoryCache * Effects :=
  if bool_decide (msg_action message = "checkVisited") then
    match handleCheckVisited (w_storage w) (w_history w) (msg_urls message)
                             (w_order w) with
    | Return r => (historyCache, mkEffects [VisitedPayload r.1] [] r.2 true)
    | Throw _ => (historyCache, mkEffects [] [] [] true)
    end
  else if bool_decide (msg_action message = "getConfig") then
    (historyCache, mkEffects [ConfigPayload (getConfig (w_storage w))] [] [] true)
  else if bool_decide (msg_action message = "configUpdated") then
    (∅, mkEffects [SuccessPayload]
                  (match notifyAllTabs (w_tabs w) (w_deliver w) with
                   | Return posted => posted
                   | Throw _ => []
                   end) [] true)
  else if bool_decide (msg_action message = "refreshTab") then
    (match sender_tab sender with
     | Some tab =>
         match tab_id tab with
         | Some i => delete i historyCache
         | None => historyCache
         end
     | None => historyCache
     end, mkEffects [SuccessPayload] [] [] true)
  else (historyCache, no_effects).

(** The [chrome.tabs.onActivated] listener. *)
Definition onActivated (w : World) (tabId : nat) (historyCache : HistoryCache)
    : HistoryCache * Effects :=
  match w_get w tabId with
  | Return (Some tab) =>
      match tab_url tab with
      | Some u =>
          if negb (bool_decide (u = "")) && negb (startsWith u "chrome://") then
            (delete tabId historyCache,
             mkEffects [] [send_and_forget (w_deliver w) tabId "refreshHighlights"]
                       [] false)
          else (historyCache, no_effects)
      | None => (historyCache, no_effects)
      end
  | Return None => (historyCache, no_effects)
  | Throw _ => (historyCache, no_effects)
  end.

(** The [chrome.tabs.onRemoved] listener. *)
Definition onRemoved (tabId : nat) (historyCache : HistoryCache)
    : HistoryCache * Effects :=
  (delete tabId historyCache, no_effects).

Inductive BgEvent : Type :=
  | MessageEvent (message : Message) (sender : Sender)
  | ActivatedEvent (tabId : nat)
  | RemovedEvent (tabId : nat).

Definition bg_step (historyCache : HistoryCache) (we : World * BgEvent)
    : HistoryCache :=
  match we.2 with
  | MessageEvent message sender => (onMessage we.1 message sender historyCache).1
  | ActivatedEvent tabId => (onActivated we.1 tabId historyCache).1
  | RemovedEvent tabId => (onRemoved tabId historyCache).1
  end.

(** The cache after a run of events, from the empty [Map] the worker
    starts with. *)
Definition bg_run (events : list (World * BgEvent)) : HistoryCache :=
  foldl bg_step ∅ events.

End background.

(** * The content script *)

(** An anchor of the document matching [a[href]]: the element, its resolved
    [href] property, and whether it carries the class [vlh-visited]. *)
Record Anchor : Type := mkAnchor {
  elem : nat;
  href : string;
  marked : bool
}.

Definition with_mark (b : bool) (a : Anchor) : Anchor := mkAnchor (elem a) (href a) b.

Module LinkMap.

(** [if (!m.has(k)) m.set(k, []); m.get(k).push(el)] on a map of elements. *)
Definition push (k : string) (el : nat) (m : JsMap.t (list nat)) : JsMap.t (list nat) :=
  let m := if negb (JsMap.has k m) then JsMap.set k [] m else m in
  match JsMap.get k m with
  | Some els => JsMap.set k (els ++ [el]) m
  | None => m
  end.

End LinkMap.

(** [updateStats] and [getStats] payloads. *)
Record Stats : Type := mkStats {
  stat_visited : nat;
  stat_total : nat
}.

(** The page-side state: the anchors of the document, the flag
    [isProcessing], whether the mutation observer is connected, and the
    custom property [--vlh-text-color]. *)
Record ContentState : Type := mkContent {
  dom : list Anchor;
  isProcessing : bool;
  observing : bool;
  text_color : string
}.

(** How [await chrome.runtime.sendMessage(...)] ends: rejected with an error
    (its [message], if any), or resolved with a response, if any. *)
Inductive Reply : Type :=
  | Rejected (message : option string)
  | Resolved (response : option Response).

Section content.
Context `{!Platform}.

(** The references the scan leaves out before it tries to parse them. *)
Definition skipped (h : string) : bool :=
  bool_decide (h = "") || startsWith h "javascript:" || startsWith h "#"
  || startsWith h "chrome://" || startsWith h "chrome-extension://".

(** [try { new URL(href) } catch { ... }] did not throw. *)
Definition parses (h : string) : bool :=
  match new_URL h with
  | Return _ => true
  | Throw _ => false
  end.

(** [collectLinks(root)], [root] being the anchors under the root in
    document order. *)
Definition collectLinks (root : list Anchor) : JsMap.t (list nat) :=
  foldl (λ linkMap anchor,
           if skipped (href anchor) then linkMap
           else if negb (parses (href anchor)) then linkMap
           else LinkMap.push (href anchor) (elem anchor) linkMap)
        [] root.

(** [clearHighlights] *)
Definition clearHighlights (d : list Anchor) : list Anchor := with_mark false <$> d.

(** [el.classList.add(HIGHLIGHT_CLASS)] *)
Definition add_class (el : nat) (d : list Anchor) : list Anchor :=
  (λ a, if bool_decide (elem a = el) then with_mark true a else a) <$> d.

(** [applyHighlightColors] *)
Definition applyHighlightColors (c : Config) (s : ContentState) : ContentState :=
  mkContent (dom s) (isProcessing s) (observing s)
            (if bool_decide (highlightTextColor c = "") then "#C58AF9"
             else highlightTextColor c).

(** The loop of [processLinks] over [linkMap]: the document, [visitedCount]
    and [totalCount]. *)
Definition highlight_loop (visitedUrls : list string) (linkMap : JsMap.t (list nat))
    (d : list Anchor) : list Anchor * nat * nat :=
  foldl (λ (acc : list Anchor * nat * nat) (g : string * list nat),
           let totalCount := acc.2 + length g.2 in
           if bool_decide (g.1 ∈ visitedUrls) then
             (foldl (λ d el, add_class el d) acc.1.1 g.2,
              acc.1.2 + length g.2, totalCount)
           else (acc.1.1, acc.1.2, totalCount))
        (d, 0, 0) linkMap.

(** [processLinks] up to its first [await]: the new state and, when a
    [checkVisited] message is sent, the [linkMap] it was built from (the
    candidates sent are its keys).  [runtime_id] is [chrome.runtime?.id]. *)
Definition processLinks_start (runtime_id : bool) (s : ContentState)
    : ContentState * option (JsMap.t (list nat)) :=
  if isProcessing s then (s, None)
  else if negb runtime_id then
    (mkContent (dom s) false (observing s) (text_color s), None)
  else
    let linkMap := collectLinks (dom s) in
    if bool_decide (length linkMap = 0) then
      (mkContent (dom s) false (observing s) (text_color s), None)
    else (mkContent (dom s) true (observing s) (text_color s), Some linkMap).

(** [processLinks] from the answer to [checkVisited] up to its next
    [await] or its end: the new state and the [updateStats] message sent, if
    any (the function then awaits its acknowledgement).  [s] is the state
    when the answer arrives. *)
Definition processLinks_resume (linkMap : JsMap.t (list nat)) (reply : Reply)
    (s : ContentState) : ContentState * list Stats :=
  match reply with
  | Rejected message =>
      if default false ((λ m, str_includes m "Extension context invalidated") <$> message)
      then (mkContent (dom s) false false (text_color s), [])
      else (mkContent (dom s) false (observing s) (text_color s), [])
  | Resolved None => (mkContent (dom s) false (observing s) (text_color s), [])
  | Resolved (Some response) =>
      let s := applyHighlightColors (config response) s in
      if negb (enabled (config response)) then
        (mkContent (clearHighlights (dom s)) false (observing s) (text_color s), [])
      else
        let r := highlight_loop (visitedUrls response) linkMap
                                (clearHighlights (dom s)) in
        (mkContent r.1.1 (isProcessing s) (observing s) (text_color s),
         [mkStats r.1.2 r.2])
  end.

(** The end of [processLinks] once [updateStats] has settled, delivered or
    not: the [finally] block. *)
Definition processLinks_finish (s : ContentState) : ContentState :=
  mkContent (dom s) false (observing s) (text_color s).

(** [handleLinkClick]; [target] is the element [event.target.closest('a[href]')]
    finds, if any. *)
Definition handleLinkClick (target : option nat) (d : list Anchor) : list Anchor :=
  match target ≫= (λ t, head (filter (λ a, elem a = t) d)) with
  | None => d
  | Some anchor =>
      if marked anchor then d
      else if skipped (href anchor) then d
      else if negb (parses (href anchor)) then d
      else
        (λ a, if bool_decide (href a = href anchor) && negb (marked a)
              then with_mark true a else a)
          <$> add_class (elem anchor) d
  end.

(** The answer to [getStats]. *)
Definition getStats (d : list Anchor) : Stats :=
  mkStats (length (filter (λ a, marked a = true) d)) (length (collectLinks d)).

(** What a call of [processLinks] that has not ended is waiting for. *)
Inductive Pending : Type :=
  | AwaitingMatch (linkMap : JsMap.t (list nat))
  | AwaitingAck.

(** What happens on the page, one at a time. *)
Inductive ContentEvent : Type :=
  | Trigger (runtime_id : bool)       (* [processLinks] is called *)
  | MatchReply (reply : Reply)        (* [checkVisited] is answered *)
  | StatsAck                          (* [updateStats] has settled *)
  | Click (target : option nat)       (* a click reaches [handleLinkClick] *)
  | Mutation (d : list Anchor).       (* the document changes *)

(** The page state with the calls of [processLinks] in flight. *)
Definition content_step (sp : ContentState * list Pending) (e : ContentEvent)
    : ContentState * list Pending :=
  match e with
  | Trigger runtime_id =>
      let r := processLinks_start runtime_id sp.1 in
      (r.1, sp.2 ++ option_list (AwaitingMatch <$> r.2))
  | MatchReply reply =>
      match sp.2 with
      | AwaitingMatch linkMap :: rest =>
          let r := processLinks_resume linkMap reply sp.1 in
          (r.1, (if bool_decide (r.2 = []) then [] else [AwaitingAck]) ++ rest)
      | _ => sp
      end
  | StatsAck =>
      match sp.2 with
      | AwaitingAck :: rest => (processLinks_finish sp.1, rest)
      | _ => sp
      end
  | Click target =>
      (mkContent (handleLinkClick target (dom sp.1)) (isProcessing sp.1)
                 (observing sp.1) (text_color sp.1), sp.2)
  | Mutation d =>
      (mkContent d (isProcessing sp.1) (observing sp.1) (text_color sp.1), sp.2)
  end.

(** A run from a page on which no scan is in flight. *)
Definition content_run (d : list Anchor) (events : list ContentEvent)
    : ContentState * list Pending :=
  foldl content_step (mkContent d false false "", []) events.

End content.

(** * Specification vocabulary *)

(** ** Query parameters by name *)

Definition name_le (p q : param) : Prop := String.le p.1 q.1.

Definition named (n : string) (l : list param) : list param :=
  filter (λ p : param, p.1 = n) l.

Section vocabulary.
Context `{!Platform}.

(** A URL the normalizer works on: its protocol is http: or https:. *)
Definition is_http (r : URLRecord) : Prop := scheme r +:+ ":" ∈ VALID_PROTOCOLS.

(** A parameter name matches an entry of the ignore list up to case. *)
Definition ignored (ignoreParams : list string) (name : string) : Prop :=
  ∃ i, i ∈ ignoreParams ∧ toLowerCase name = toLowerCase i.

#[global] Instance ignored_dec ignoreParams name : Decision (ignored ignoreParams name).
Proof.
  refine (cast_if (decide (toLowerCase name ∈ toLowerCase <$> ignoreParams)));
    unfold ignored; rewrite list_elem_of_fmap in *; naive_solver.
Defined.

Definition kept (ignoreParams : list string) (l : list param) : list param :=
  filter (λ p : param, ¬ ignored ignoreParams p.1) l.

(** The query a query object writes back to its URL. *)
Definition query_of_list (l : list param) : option string :=
  let s := urlencoded_serialize l in
  if bool_decide (s = "") then None else Some s.

(** The URL record as [normalizeUrl] leaves it. *)
Definition normalized (r : URLRecord) (ignoreParams : list string) : URLRecord :=
  set_query (query_of_list (stable_sort (kept ignoreParams (query_list r)))) r.

(** ** What the theorems ask of the platform

    Properties of the URL Standard's parsers, stated for the URLs the
    normalizer works on. *)

(** A URL with a special scheme has a host, and it is not empty. *)
Definition special_host_nonempty : Prop :=
  ∀ url r, url_parse url = Some r → is_http r →
    ∃ h, host r = Some h ∧ h ≠ "".

(** Parsing what the serializer wrote for a parsed http(s) URL, whose query
    was written by its query object holding some of its own parameters,
    gives that URL record back. *)
Definition href_reparses : Prop :=
  ∀ url r l, url_parse url = Some r → is_http r → l ⊆ query_list r →
    url_parse (serialize_url (set_query (query_of_list l) r))
    = Some (set_query (query_of_list l) r).

(** The form-urlencoded parser reads back what the serializer wrote for
    parameters that came out of the parser. *)
Definition urlencoded_roundtrip : Prop :=
  ∀ s l, l ⊆ urlencoded_parse s →
    urlencoded_parse (urlencoded_serialize l) = l.

Definition urlencoded_parse_empty : Prop := urlencoded_parse "" = [].

(** ** Grouping and matching *)

(** The condition under which the grouping loop keeps a candidate. *)
Definition grouped (url : string) : Prop :=
  isValidHttpUrl url = true ∧ ∃ d, extractDomain url = Some d ∧ d ≠ "".

#[global] Instance grouped_dec url : Decision (grouped url).
Proof.
  refine (cast_if (decide (isValidHttpUrl url = true
                           ∧ is_Some (extractDomain url)
                           ∧ extractDomain url ≠ Some "")));
    unfold grouped, is_Some in *; destruct (extractDomain url); naive_solver.
Defined.

(** Some URL of [historyUrls] has the key of [url]. *)
Definition matches (ignoreParams historyUrls : list string) (url : string) : Prop :=
  ∃ h, h ∈ historyUrls ∧ normalizeUrl h ignoreParams = normalizeUrl url ignoreParams.

(** The URLs a domain query resolves with. *)
Definition history_urls (hs : HistoryStore) (domain : string) : list string :=
  (queryHistoryByDomain hs domain).1.

End vocabulary.

(** ** The background worker's events *)

(** The tab an event names, if any. *)
Definition event_tab (e : BgEvent) : option nat :=
  match e with
  | MessageEvent message sender => sender_tab sender ≫= tab_id
  | ActivatedEvent tabId => Some tabId
  | RemovedEvent tabId => Some tabId
  end.

Definition KNOWN_ACTIONS : list string :=
  ["checkVisited"; "getConfig"; "configUpdated"; "refreshTab"].


(** ** The content script's links *)

Section content_vocabulary.
Context `{!Platform}.

(** A reference the scan collects. *)
Definition collectable (h : string) : Prop := skipped h = false ∧ parses h = true.

#[global] Instance collectable_dec h : Decision (collectable h).
Proof. unfold collectable. apply _. Defined.

(** The elements of the document whose reference is [u], when the scan
    collects it, in document order. *)
Definition anchors_of (root : list Anchor) (u : string) : list nat :=
  elem <$> filter (λ a, href a = u ∧ collectable (href a)) root.

(** The elements a scan of the document [d] collected under a reference of
    [visited], in document order. *)
Definition visited_elements (d : list Anchor) (visited : list string) : list nat :=
  elem <$> filter (λ a, collectable (href a) ∧ href a ∈ visited) d.

(** The document with the mark of every anchor decided by [P]. *)
Definition remarked (P : Anchor → Prop) `{!∀ a, Decision (P a)}
    (d : list Anchor) : list Anchor :=
  (λ a, with_mark (bool_decide (P a)) a) <$> d.

End content_vocabulary.

(** ** Data for the scenarios *)

(** A history store that knows two pages of x.com and fails on y.com. *)
Definition demo_history : HistoryStore := λ q,
  if bool_decide (text q = "x.com") then
    Some [mkItem "https://x.com/a" "A"; mkItem "https://x.com/list?a=1&b=2" "List"]
  else if bool_decide (text q = "y.com") then None
  else Some [].

Definition demo_urls : list string :=
  ["https://x.com/a?utm_source=x"; "https://y.com/"; "https://x.com/a";
   "javascript:void(0)"; "https://x.com/list?b=2&a=1"; "https://x.com/b"].

Definition demo_storage : Storage :=
  mkStorage None (Some ["utm_source"]) None.

Definition disabled_storage : Storage :=
  mkStorage (Some false) (Some ["utm_source"]) None.

Definition demo_tabs : list Tab :=
  [mkTab (Some 7) (Some "https://x.com/a"); mkTab (Some 8) (Some "chrome://settings/");
   mkTab None (Some "https://y.com/"); mkTab (Some 9) None;
   mkTab (Some 10) (Some "https://y.com/")].

(** A page with a repeated link, a marked link, a script link and a mail
    link. *)
Definition demo_page : list Anchor :=
  [mkAnchor 1 "https://x.com/a" false; mkAnchor 2 "https://x.com/b" true;
   mkAnchor 3 "https://x.com/a" false; mkAnchor 4 "javascript:void(0)" false;
   mkAnchor 5 "https://y.com/" false; mkAnchor 6 "mailto:me@x.com" true].

Definition demo_content : ContentState := mkContent demo_page false true "".

(** The page when the answer arrives: a link to a visited URL has been
    added since the scan. *)
Definition demo_content_later : ContentState :=
  mkContent (demo_page ++ [mkAnchor 7 "https://x.com/a" false]) true true "".

(** The page when the answer arrives, had it not changed. *)
Definition demo_content_waiting : ContentState := mkContent demo_page true true "".

Definition demo_response : Response :=
  mkResponse ["https://x.com/a"] (mkConfig true [] "#C58AF9") None.

Definition demo_cache : HistoryCache := {[ 7 := ["https://x.com/a"]; 8 := [] ]}.

(** A world in which the message to tab 7 is not delivered. *)
Definition demo_world : World :=
  mkWorld demo_storage demo_history [1; 0] (Return demo_tabs)
          (λ i, Return (demo_tabs !! 0))
          (λ i, if bool_decide (i = 7) then Throw (TypeError "no receiver") else Return ()).

(** * Properties *)

(** ** Strings *)

Lemma append_cons a s t : String a s +:+ t = String a (s +:+ t).
Proof. done. Qed.

Lemma append_nil_r s : s +:+ "" = s.
Proof. induction s as [|a s IH]; [done|]. by rewrite append_cons, IH. Qed.

Lemma append_assoc a b c : (a +:+ b) +:+ c = a +:+ b +:+ c.
Proof. induction a as [|x a IH]; [done|]. by rewrite !append_cons, IH. Qed.

(** ** The stable sort of [URLSearchParams] *)

Lemma leb_false_le (a b : string) : String.leb a b = false → String.le b a.
Proof.
  intros Hab. destruct (total String.le a b) as [H|H]; [|done].
  unfold String.le in H. rewrite Hab in H. done.
Qed.

Lemma insert_by_name_perm p l : insert_by_name p l ≡ₚ p :: l.
Proof.
  induction l as [|q l IH]; simpl; [done|].
  destruct (String.leb p.1 q.1); [done|].
  rewrite IH. apply Permutation_swap.
Qed.

Lemma stable_sort_perm l : stable_sort l ≡ₚ l.
Proof.
  induction l as [|p l IH]; simpl; [done|].
  rewrite insert_by_name_perm. by rewrite IH.
Qed.

Lemma insert_by_name_sorted p l :
  StronglySorted name_le l → StronglySorted name_le (insert_by_name p l).
Proof.
  induction 1 as [|q l Hl IH Hq]; simpl.
  { repeat constructor. }
  destruct (String.leb p.1 q.1) eqn:Hpq.
  - constructor; [by constructor|].
    assert (name_le p q) as Hle by (unfold name_le, String.le; by rewrite Hpq).
    constructor; [done|].
    eapply Forall_impl; [exact Hq|]. intros r Hr. unfold name_le in *. by etrans.
  - constructor; [done|].
    rewrite insert_by_name_perm. constructor; [|done].
    by apply leb_false_le.
Qed.

Lemma stable_sort_sorted l : StronglySorted name_le (stable_sort l).
Proof.
  induction l; simpl; [constructor|]. by apply insert_by_name_sorted.
Qed.

Lemma insert_by_name_named n p l :
  named n (insert_by_name p l) = named n (p :: l).
Proof.
  unfold named. induction l as [|q l IH]; simpl; [done|].
  destruct (String.leb p.1 q.1) eqn:Hpq; [done|].
  rewrite (filter_cons _ q (insert_by_name p l)), IH.
  rewrite !filter_cons. repeat case_decide; try done.
  exfalso. assert (String.le p.1 q.1) as Hle.
  { replace q.1 with p.1 by congruence. done. }
  unfold String.le in Hle. by rewrite Hpq in Hle.
Qed.

(** Stability: the parameters of one name keep their relative order. *)
Lemma stable_sort_named n l : named n (stable_sort l) = named n l.
Proof.
  induction l as [|p l IH]; simpl; [done|].
  rewrite insert_by_name_named. unfold named in *.
  by rewrite !filter_cons, IH.
Qed.

Lemma sorted_named_eq l l' :
  StronglySorted name_le l → StronglySorted name_le l' →
  (∀ n, named n l = named n l') → l = l'.
Proof.
  intros Hl. revert l'. induction Hl as [|p l Hl IH Hp]; intros l' Hl' Heq.
  - destruct l' as [|q l']; [done|].
    specialize (Heq q.1). unfold named in Heq.
    rewrite filter_cons in Heq. by rewrite decide_True in Heq.
  - destruct l' as [|q l'].
    { specialize (Heq p.1). unfold named in Heq.
      rewrite filter_cons in Heq. by rewrite decide_True in Heq. }
    apply StronglySorted_inv in Hl' as [Hl' Hq].
    assert (p.1 = q.1) as Hpq.
    { apply (anti_symm String.le).
      - assert (q ∈ named q.1 (p :: l)) as Hin.
        { rewrite Heq. unfold named. apply list_elem_of_filter. split; [done|left]. }
        apply list_elem_of_filter in Hin as [_ Hin].
        apply elem_of_cons in Hin as [->|Hin]; [done|].
        rewrite Forall_forall in Hp. by apply Hp.
      - assert (p ∈ named p.1 (q :: l')) as Hin.
        { rewrite <-Heq. unfold named. apply list_elem_of_filter. split; [done|left]. }
        apply list_elem_of_filter in Hin as [_ Hin].
        apply elem_of_cons in Hin as [->|Hin]; [done|].
        rewrite Forall_forall in Hq. by apply Hq. }
    assert (p = q) as ->.
    { specialize (Heq p.1). unfold named in Heq. rewrite !filter_cons in Heq.
      rewrite decide_True in Heq by done. rewrite decide_True in Heq by done.
      by simplify_eq. }
    f_equal. apply IH; [done|]. intros n. specialize (Heq n).
    unfold named in *. rewrite !filter_cons in Heq.
    case_decide; by simplify_eq.
Qed.

Lemma stable_sort_id l : StronglySorted name_le l → stable_sort l = l.
Proof.
  intros Hl. apply sorted_named_eq; [apply stable_sort_sorted|done|].
  intros n. apply stable_sort_named.
Qed.

Lemma stable_sort_idem l : stable_sort (stable_sort l) = stable_sort l.
Proof. apply stable_sort_id, stable_sort_sorted. Qed.

(** Two lists sort to the same list exactly when, name by name, they hold
    the same parameters in the same order. *)
Lemma stable_sort_eq_iff l l' :
  stable_sort l = stable_sort l' ↔ ∀ n, named n l = named n l'.
Proof.
  split.
  - intros Heq n. by rewrite <-(stable_sort_named n l), Heq, stable_sort_named.
  - intros Heq. apply sorted_named_eq; [apply stable_sort_sorted..|].
    intros n. by rewrite !stable_sort_named.
Qed.

(** ** The normalizer *)

Lemma filter_ext_in {A} (P Q : A → Prop) `{!∀ x, Decision (P x)}
    `{!∀ x, Decision (Q x)} (l : list A) :
  (∀ x, x ∈ l → P x ↔ Q x) → filter P l = filter Q l.
Proof.
  induction l as [|x l IH]; intros HPQ; [done|].
  rewrite !filter_cons, IH by (intros y Hy; apply HPQ; by right).
  destruct (HPQ x) as [H1 H2]; [left|].
  repeat case_decide; naive_solver.
Qed.

Lemma set_query_set_query q q' r : set_query q (set_query q' r) = set_query q r.
Proof. done. Qed.

Section normalizer_facts.
Context `{!Platform}.

Lemma is_http_includes r :
  includes VALID_PROTOCOLS (scheme r +:+ ":") = true ↔ is_http r.
Proof. unfold includes, is_http. by rewrite bool_decide_eq_true. Qed.

Lemma is_http_scheme r : is_http r ↔ scheme r = "http" ∨ scheme r = "https".
Proof.
  unfold is_http, VALID_PROTOCOLS. rewrite !elem_of_cons, elem_of_nil.
  assert (∀ s t, s +:+ ":" = t +:+ ":" → s = t) as Hinj.
  { induction s as [|a s IH]; intros [|b t] Heq; simplify_eq/=; try done.
    - by destruct t.
    - by destruct s.
    - f_equal. by apply IH. }
  split.
  - intros [Heq|[Heq|[]]]; [left|right]; by apply Hinj.
  - intros [->| ->]; auto.
Qed.

(** The branch that clears the hash is never taken: [hash] is never ["#"]. *)
Lemma get_hash_not_marker o : get_hash o ≠ "#".
Proof.
  unfold get_hash. destruct (fragment (url_of o)) as [f|]; [|done].
  case_bool_decide as Hf; [done|]. destruct f; [done|]. by intros [=].
Qed.

Lemma foldl_delete_params keys o :
  params_of (foldl (λ o key, searchParams_delete key o) o keys)
  = filter (λ p : param, p.1 ∉ keys) (params_of o).
Proof.
  revert o. induction keys as [|k keys IH]; intros o; simpl.
  - symmetry. induction (params_of o) as [|p l IHl]; [done|].
    rewrite filter_cons, IHl. rewrite decide_True; [done|]. apply not_elem_of_nil.
  - rewrite IH. simpl. rewrite list_filter_filter. apply filter_ext_in.
    intros p _. rewrite not_elem_of_cons. naive_solver.
Qed.

Lemma foldl_delete_url q keys o :
  set_query q (url_of (foldl (λ o key, searchParams_delete key o) o keys))
  = set_query q (url_of o).
Proof.
  revert o. induction keys as [|k keys IH]; intros o; simpl; [done|].
  by rewrite IH.
Qed.

Lemma keysToDelete_filter ignoreParams (l : list param) :
  filter (λ p : param,
            p.1 ∉ filter (λ key, toLowerCase key ∈
                            (list_to_set (toLowerCase <$> ignoreParams) : gset string))
                         (l.*1)) l
  = kept ignoreParams l.
Proof.
  apply filter_ext_in. intros p Hp.
  rewrite list_elem_of_filter, elem_of_list_to_set, list_elem_of_fmap.
  unfold ignored. split.
  - intros Hn [i [Hi Heq]]. apply Hn. split; [by exists i|].
    apply list_elem_of_fmap. by exists p.
  - intros Hn [[i [Heq Hi]] _]. apply Hn. by exists i.
Qed.

Lemma kept_nil (l : list param) : kept [] l = l.
Proof.
  unfold kept. induction l as [|p l IH]; [done|].
  rewrite filter_cons, IH. rewrite decide_True; [done|].
  intros [i [Hi _]]. by apply elem_of_nil in Hi.
Qed.

(** What [normalizeUrl] computes on an http(s) URL. *)
Lemma normalizeUrl_http url r ignoreParams :
  url_parse url = Some r → is_http r →
  normalizeUrl url ignoreParams = serialize_url (normalized r ignoreParams).
Proof.
  intros Hparse Hhttp. apply is_http_includes in Hhttp.
  unfold normalizeUrl, normalizeUrl_c, normalizeUrl_body, new_URL.
  rewrite Hparse. simpl. unfold get_protocol. simpl. rewrite Hhttp. simpl.
  rewrite (bool_decide_eq_false_2 _ (get_hash_not_marker _)).
  unfold toString, searchParams_sort, update, normalized, query_of_list. simpl.
  destruct (bool_decide (0 < length ignoreParams)) eqn:Hlen.
  - rewrite foldl_delete_params. unfold searchParams_keys. cbn [params_of url_of].
    rewrite keysToDelete_filter. by rewrite foldl_delete_url.
  - apply bool_decide_eq_false in Hlen.
    destruct ignoreParams; [|simpl in Hlen; lia]. by rewrite kept_nil.
Qed.

Lemma normalizeUrl_c_returns url ignoreParams :
  normalizeUrl_c url ignoreParams = Return (normalizeUrl url ignoreParams).
Proof.
  unfold normalizeUrl. destruct (normalizeUrl_c url ignoreParams) as [s|e] eqn:Hc; [done|].
  exfalso. unfold normalizeUrl_c, normalizeUrl_body, new_URL in Hc.
  destruct (url_parse url); simpl in Hc; [|done].
  by destruct (negb _).
Qed.

Lemma normalizeUrl_not_http url ignoreParams :
  (∀ r, url_parse url = Some r → ¬ is_http r) →
  normalizeUrl url ignoreParams = url.
Proof.
  intros Hnot. unfold normalizeUrl, normalizeUrl_c, normalizeUrl_body, new_URL.
  destruct (url_parse url) as [r|] eqn:Hparse; simpl; [|done].
  specialize (Hnot r eq_refl). rewrite <-is_http_includes in Hnot.
  unfold get_protocol. simpl. by destruct (includes _ _).
Qed.

Lemma isValidHttpUrl_spec url :
  isValidHttpUrl url = true ↔ ∃ r, url_parse url = Some r ∧ is_http r.
Proof.
  unfold isValidHttpUrl, isValidHttpUrl_c, new_URL.
  destruct (url_parse url) as [r|]; simpl.
  - unfold get_protocol. simpl. rewrite is_http_includes. naive_solver.
  - naive_solver.
Qed.

Lemma extractDomain_spec url :
  extractDomain url = (λ r, default "" (host r)) <$> url_parse url.
Proof.
  unfold extractDomain, extractDomain_c, new_URL.
  by destruct (url_parse url).
Qed.

End normalizer_facts.

Section normalizer_properties.
Context `{!Platform}.

Lemma filter_all {A} (P : A → Prop) `{!∀ x, Decision (P x)} (l : list A) :
  (∀ x, x ∈ l → P x) → filter P l = l.
Proof.
  induction l as [|x l IH]; intros HP; [done|].
  rewrite filter_cons, decide_True by (apply HP; left).
  f_equal. apply IH. intros y Hy. apply HP. by right.
Qed.

Lemma kept_named ignoreParams n l :
  named n (kept ignoreParams l)
  = if decide (ignored ignoreParams n) then [] else named n l.
Proof.
  unfold named, kept. rewrite list_filter_filter. case_decide as Hn.
  - induction l as [|p l IH]; [done|].
    rewrite filter_cons, IH. rewrite decide_False; [done|]. naive_solver.
  - apply filter_ext_in. naive_solver.
Qed.

Lemma kept_stable_sort ignoreParams l :
  kept ignoreParams (stable_sort (kept ignoreParams l))
  = stable_sort (kept ignoreParams l).
Proof.
  apply filter_all. intros p. rewrite stable_sort_perm. unfold kept.
  rewrite list_elem_of_filter. naive_solver.
Qed.

Lemma is_http_set_query q r : is_http (set_query q r) ↔ is_http r.
Proof. done. Qed.

Lemma sorted_kept_subseteq ignoreParams l :
  stable_sort (kept ignoreParams l) ⊆ l.
Proof.
  intros p. rewrite stable_sort_perm. unfold kept.
  rewrite list_elem_of_filter. naive_solver.
Qed.

Lemma query_list_source r : ∃ s, query_list r ⊆ urlencoded_parse s.
Proof.
  unfold query_list. destruct (query r) as [q|]; [by exists q|].
  exists "". intros p Hp. by apply elem_of_nil in Hp.
Qed.

Lemma sorted_kept_roundtrip r ignoreParams :
  urlencoded_roundtrip →
  urlencoded_parse (urlencoded_serialize
                      (stable_sort (kept ignoreParams (query_list r))))
  = stable_sort (kept ignoreParams (query_list r)).
Proof.
  intros Hrt. destruct (query_list_source r) as [s Hs].
  apply (Hrt s). etrans; [apply sorted_kept_subseteq|done].
Qed.

(** The query object of the normalized URL, parsed again, holds the sorted
    list of the parameters that were kept. *)
Lemma query_list_normalized r ignoreParams :
  urlencoded_roundtrip → urlencoded_parse_empty →
  query_list (normalized r ignoreParams)
  = stable_sort (kept ignoreParams (query_list r)).
Proof.
  intros Hrt Hemp. unfold normalized, query_of_list, query_list at 1. simpl.
  case_bool_decide as Hs; simpl; [|by apply sorted_kept_roundtrip].
  by rewrite <-(sorted_kept_roundtrip r ignoreParams), Hs, Hemp.
Qed.

Lemma normalized_idem r ignoreParams :
  urlencoded_roundtrip → urlencoded_parse_empty →
  normalized (normalized r ignoreParams) ignoreParams = normalized r ignoreParams.
Proof.
  intros Hrt Hemp. unfold normalized at 1.
  rewrite query_list_normalized, kept_stable_sort, stable_sort_idem by done.
  unfold normalized. by rewrite set_query_set_query.
Qed.


Lemma named_eq_perm l l' : (∀ n, named n l' = named n l) → l' ≡ₚ l.
Proof.
  intros Hn. apply stable_sort_eq_iff in Hn.
  by rewrite <-(stable_sort_perm l'), Hn, stable_sort_perm.
Qed.

Lemma Forall2_kept ignoreParams l l' :
  Forall2 (λ p p' : param,
             p.1 = p'.1 ∧ (¬ ignored ignoreParams p.1 → p.2 = p'.2)) l l' →
  kept ignoreParams l' = kept ignoreParams l.
Proof.
  unfold kept. induction 1 as [|[n v] [n' v'] l l' [Hn Hv] _ IH]; [done|].
  simpl in *. subst n'. rewrite !filter_cons. simpl. rewrite IH.
  case_decide; [|done]. by rewrite Hv.
Qed.

(** C6: normalizeUrl is idempotent, for every string and every ignore list:
    normalizing a normalized URL again changes nothing. *)
Theorem normalizeUrl_idempotent url ignoreParams :
  href_reparses → urlencoded_roundtrip → urlencoded_parse_empty →
  normalizeUrl (normalizeUrl url ignoreParams) ignoreParams
  = normalizeUrl url ignoreParams.
Proof.
  intros Hre Hrt Hemp.
  destruct (url_parse url) as [r|] eqn:Hparse.
  - destruct (decide (is_http r)) as [Hhttp|Hhttp].
    + rewrite (normalizeUrl_http url r) by done.
      rewrite (normalizeUrl_http _ (normalized r ignoreParams)).
      * by rewrite normalized_idem.
      * apply (Hre url); [done..|]. apply sorted_kept_subseteq.
      * done.
    + rewrite (normalizeUrl_not_http url) by (intros; by simplify_eq).
      apply normalizeUrl_not_http. intros; by simplify_eq.
  - rewrite (normalizeUrl_not_http url) by (intros; by simplify_eq).
    apply normalizeUrl_not_http. intros; by simplify_eq.
Qed.


(** C5: on a valid http(s) URL the key is the URL whose query object holds
    the parameters whose name matches no entry of the ignore list up to case,
    sorted; parsed again, the key has no ignored parameter; and two URLs that
    differ only in the values of ignored parameters have the same key. *)
Theorem normalizeUrl_ignores url r ignoreParams :
  url_parse url = Some r → is_http r →
  normalizeUrl url ignoreParams
    = serialize_url
        (set_query (query_of_list (stable_sort (kept ignoreParams (query_list r)))) r)
  ∧ (∀ p, p ∈ stable_sort (kept ignoreParams (query_list r))
          ↔ p ∈ query_list r ∧ ¬ ignored ignoreParams p.1)
  ∧ (href_reparses → urlencoded_roundtrip → urlencoded_parse_empty →
     ∃ r1, url_parse (normalizeUrl url ignoreParams) = Some r1
           ∧ ∀ p, p ∈ query_list r1 → ¬ ignored ignoreParams p.1)
  ∧ (∀ url' r', url_parse url' = Some r' →
       set_query None r' = set_query None r →
       Forall2 (λ p p' : param,
                  p.1 = p'.1 ∧ (¬ ignored ignoreParams p.1 → p.2 = p'.2))
               (query_list r) (query_list r') →
       normalizeUrl url' ignoreParams = normalizeUrl url ignoreParams).
Proof.
  intros Hparse Hhttp. split_and!.
  - by apply normalizeUrl_http.
  - intros p. rewrite stable_sort_perm. unfold kept.
    rewrite list_elem_of_filter. naive_solver.
  - intros Hre Hrt Hemp. exists (normalized r ignoreParams). split.
    + rewrite (normalizeUrl_http url r) by done.
      apply (Hre url); [done..|]. apply sorted_kept_subseteq.
    + intros p. rewrite query_list_normalized, stable_sort_perm by done.
      unfold kept. rewrite list_elem_of_filter. naive_solver.
  - intros url' r' Hparse' Hsame Hvals.
    assert (is_http r') as Hhttp'.
    { unfold is_http in *. by replace (scheme r') with (scheme (set_query None r')) by done; rewrite Hsame. }
    rewrite (normalizeUrl_http url r), (normalizeUrl_http url' r') by done.
    unfold normalized. rewrite (Forall2_kept _ _ _ Hvals).
    by rewrite <-(set_query_set_query _ None r'), Hsame.
Qed.

(** C7: a string that does not parse, or parses with a scheme other than
    http and https, comes back unchanged and nothing is thrown;
    isValidHttpUrl returns true exactly when the string parses with scheme
    http or https, and it never throws either. *)
Theorem normalizeUrl_passthrough url ignoreParams :
  ((url_parse url = None
    ∨ ∃ r, url_parse url = Some r ∧ scheme r ≠ "http" ∧ scheme r ≠ "https") →
   normalizeUrl_c url ignoreParams = Return url)
  ∧ (∃ s, normalizeUrl_c url ignoreParams = Return s)
  ∧ (isValidHttpUrl_c url = Return true
     ↔ ∃ r, url_parse url = Some r ∧ (scheme r = "http" ∨ scheme r = "https"))
  ∧ (∃ b, isValidHttpUrl_c url = Return b).
Proof.
  split_and!.
  - intros Hbad. rewrite normalizeUrl_c_returns. f_equal.
    apply normalizeUrl_not_http. intros r Hr. rewrite is_http_scheme.
    destruct Hbad as [Hnone|[r' [Hr' [H1 H2]]]]; simplify_eq. naive_solver.
  - eexists. apply normalizeUrl_c_returns.
  - unfold isValidHttpUrl_c, new_URL. destruct (url_parse url) as [r|]; simpl.
    + unfold get_protocol. simpl. split.
      * intros [= Hinc]. exists r. split; [done|].
        by apply is_http_scheme, is_http_includes.
      * intros [r' [[= <-] Hs]]. apply is_http_scheme, is_http_includes in Hs.
        by rewrite Hs.
    + split; [done|]. by intros [r [? _]].
  - unfold isValidHttpUrl_c, new_URL. destruct (url_parse url); simpl; eauto.
Qed.

(** The fragment of an http(s) URL, empty or not, is in the key as it was
    parsed. *)
Lemma normalizeUrl_fragment url r ignoreParams :
  url_parse url = Some r → is_http r →
  ∃ r', normalizeUrl url ignoreParams = serialize_url r'
        ∧ fragment r' = fragment r ∧ set_query None r' = set_query None r.
Proof.
  intros Hparse Hhttp. exists (normalized r ignoreParams).
  split; [by apply normalizeUrl_http|done].
Qed.

(** With an empty fragment the key ends in the hash mark: it is the key of
    the same URL without fragment, followed by ["#"]. *)
Lemma normalizeUrl_empty_fragment url url0 r ignoreParams :
  url_parse url = Some r → is_http r → fragment r = Some "" →
  url_parse url0 = Some (set_fragment None r) →
  normalizeUrl url ignoreParams = normalizeUrl url0 ignoreParams +:+ "#".
Proof.
  intros Hparse Hhttp Hfrag Hparse0.
  rewrite (normalizeUrl_http url r), (normalizeUrl_http url0 (set_fragment None r))
    by done.
  unfold normalized, serialize_url, query_list. simpl. rewrite Hfrag. simpl.
  by rewrite !append_assoc, append_nil_r.
Qed.

End normalizer_properties.

(** ** Grouping by domain *)

Lemma get_cons_ne {V} k k' (v : V) m :
  k' ≠ k → JsMap.get k ((k', v) :: m) = JsMap.get k m.
Proof. intros. simpl. by destruct (decide (k' = k)). Qed.

Lemma set_cons_ne {V} k k' (v v' : V) m :
  k' ≠ k → JsMap.set k v ((k', v') :: m) = (k', v') :: JsMap.set k v m.
Proof. intros. simpl. by destruct (decide (k' = k)). Qed.

Lemma push_unfold k x (m : JsMap.t (list string)) :
  JsMap.push k x m
  = match m with
    | [] => [(k, [x])]
    | (k', xs) :: m' =>
        if decide (k' = k) then (k, xs ++ [x]) :: m' else (k', xs) :: JsMap.push k x m'
    end.
Proof.
  unfold JsMap.push, JsMap.has. destruct m as [|[k' xs] m'].
  { simpl. by destruct (decide (k = k)). }
  destruct (decide (k' = k)) as [->|Hne].
  - rewrite bool_decide_eq_true_2 by (simpl; left). simpl.
    by destruct (decide (k = k)).
  - assert (bool_decide (k ∈ ((k', xs) :: m').*1) = bool_decide (k ∈ m'.*1)) as ->.
    { apply bool_decide_ext. simpl. rewrite elem_of_cons. naive_solver. }
    destruct (bool_decide (k ∈ m'.*1)); cbn [negb].
    + rewrite get_cons_ne by done.
      destruct (JsMap.get k m'); [|done]. by rewrite set_cons_ne.
    + rewrite set_cons_ne, get_cons_ne by done.
      destruct (JsMap.get k (JsMap.set k [] m')); [|done]. by rewrite set_cons_ne.
Qed.

Lemma push_keys k x (m : JsMap.t (list string)) :
  (JsMap.push k x m).*1 = if decide (k ∈ m.*1) then m.*1 else m.*1 ++ [k].
Proof.
  induction m as [|[k' xs] m IH]; rewrite push_unfold.
  { case_decide as Hin; [by apply elem_of_nil in Hin|done]. }
  destruct (decide (k' = k)) as [->|Hne]; rewrite !fmap_cons; cbn [fst].
  - destruct (decide (k ∈ k :: m.*1)) as [|Hin]; [done|]. exfalso. apply Hin. left.
  - rewrite IH. repeat case_decide; try done; exfalso; set_solver.
Qed.

Lemma push_keys_NoDup k x (m : JsMap.t (list string)) :
  NoDup m.*1 → NoDup (JsMap.push k x m).*1.
Proof.
  intros Hnd. rewrite push_keys. case_decide as Hin; [done|].
  apply NoDup_app. split_and!; [done| |apply NoDup_singleton].
  intros y Hy ->%list_elem_of_singleton. done.
Qed.

Lemma push_concat k x (m : JsMap.t (list string)) :
  mjoin (JsMap.push k x m).*2 ≡ₚ mjoin m.*2 ++ [x].
Proof.
  induction m as [|[k' xs] m IH]; rewrite push_unfold; [done|].
  destruct (decide (k' = k)) as [->|Hne]; simpl.
  - rewrite <-!(assoc_L (++)). f_equiv. apply Permutation_app_comm.
  - by rewrite IH, (assoc_L (++)).
Qed.

Lemma push_Forall (P : string → string → Prop) k x (m : JsMap.t (list string)) :
  Forall (λ g, Forall (P g.1) g.2) m → P k x →
  Forall (λ g, Forall (P g.1) g.2) (JsMap.push k x m).
Proof.
  intros Hm Hx. induction Hm as [|[k' xs] m Hxs Hm IH]; rewrite push_unfold.
  { repeat constructor. done. }
  destruct (decide (k' = k)) as [->|Hne]; constructor; simpl in *; try done.
  apply Forall_app. split; [done|]. by constructor.
Qed.

Section matcher_properties.
Context `{!Platform}.

Lemma group_step_fst ignoreParams st url :
  (group_step ignoreParams st url).1
  = if decide (grouped url)
    then JsMap.push (default "" (extractDomain url)) url st.1
    else st.1.
Proof.
  unfold group_step. destruct (decide (grouped url)) as [[Hv [d [Hd Hne]]]|Hng].
  - rewrite Hv, Hd. simpl. by rewrite bool_decide_eq_false_2.
  - destruct (isValidHttpUrl url) eqn:Hv; simpl; [|done].
    destruct (extractDomain url) as [d|] eqn:Hd; [|done].
    case_bool_decide as Hne; [done|]. exfalso. apply Hng. split; [done|]. by exists d.
Qed.

Lemma group_urls_perm ignoreParams urls st :
  mjoin (foldl (group_step ignoreParams) st urls).1.*2
  ≡ₚ mjoin st.1.*2 ++ filter grouped urls.
Proof.
  revert st. induction urls as [|url urls IH]; intros st; simpl.
  { by rewrite filter_nil, (right_id_L [] (++)). }
  rewrite IH, group_step_fst, filter_cons. case_decide; [|done].
  rewrite push_concat, <-(assoc_L (++)). done.
Qed.

Lemma group_urls_keys ignoreParams urls st :
  NoDup st.1.*1 → NoDup (foldl (group_step ignoreParams) st urls).1.*1.
Proof.
  revert st. induction urls as [|url urls IH]; intros st Hnd; simpl; [done|].
  apply IH. rewrite group_step_fst. case_decide; [|done].
  by apply push_keys_NoDup.
Qed.

Lemma group_urls_domain ignoreParams urls st :
  Forall (λ g, Forall (λ u, grouped u ∧ extractDomain u = Some g.1) g.2) st.1 →
  Forall (λ g, Forall (λ u, grouped u ∧ extractDomain u = Some g.1) g.2)
         (foldl (group_step ignoreParams) st urls).1.
Proof.
  revert st. induction urls as [|url urls IH]; intros st Hst; simpl; [done|].
  apply IH. rewrite group_step_fst. case_decide as Hg; [|done].
  apply (push_Forall (λ d u, grouped u ∧ extractDomain u = Some d)); [done|].
  split; [done|]. destruct Hg as [_ [d [-> _]]]. done.
Qed.

Lemma domainGroups_perm urls ignoreParams :
  mjoin (domainGroups urls ignoreParams).*2 ≡ₚ filter grouped urls.
Proof. unfold domainGroups, group_urls. by rewrite group_urls_perm. Qed.

Lemma domainGroups_keys urls ignoreParams :
  NoDup (domainGroups urls ignoreParams).*1.
Proof. apply group_urls_keys. simpl. constructor. Qed.

Lemma domainGroups_domain urls ignoreParams d us u :
  (d, us) ∈ domainGroups urls ignoreParams → u ∈ us →
  grouped u ∧ extractDomain u = Some d.
Proof.
  intros Hg Hu.
  pose proof (group_urls_domain ignoreParams urls ([], []) (Forall_nil_2 _)) as HF.
  rewrite Forall_forall in HF. specialize (HF _ Hg).
  rewrite Forall_forall in HF. by apply HF.
Qed.

(** A candidate lies in a group exactly when the loop kept it, and then the
    group is the one of its domain. *)
Lemma domainGroups_elem urls ignoreParams u :
  (∃ d us, (d, us) ∈ domainGroups urls ignoreParams ∧ u ∈ us)
  ↔ u ∈ urls ∧ grouped u.
Proof.
  transitivity (u ∈ filter grouped urls);
    [|rewrite list_elem_of_filter; naive_solver].
  rewrite <-(domainGroups_perm urls ignoreParams), list_elem_of_join. split.
  - intros (d & us & Hg & Hu). exists us. split; [done|].
    apply list_elem_of_fmap. by exists (d, us).
  - intros (us & Hu & Hg). apply list_elem_of_fmap in Hg as ([d us'] & -> & Hg).
    by exists d, us'.
Qed.

Lemma grouped_valid url :
  special_host_nonempty → grouped url ↔ isValidHttpUrl url = true.
Proof.
  intros Hlaw. unfold grouped. split; [naive_solver|]. intros Hv.
  split; [done|]. apply isValidHttpUrl_spec in Hv as (r & Hparse & Hhttp).
  destruct (Hlaw _ _ Hparse Hhttp) as (h & Hh & Hne).
  exists h. split; [|done]. by rewrite extractDomain_spec, Hparse; simpl; rewrite Hh.
Qed.

End matcher_properties.

(** ** Matching against history *)

Lemma JsSet_add_elem x y s : x ∈ JsSet.add y s ↔ x = y ∨ x ∈ s.
Proof.
  unfold JsSet.add, JsSet.has. case_bool_decide as Hy.
  - split; [by right|]. by intros [->|].
  - rewrite elem_of_app, list_elem_of_singleton. naive_solver.
Qed.

Lemma JsSet_add_NoDup y s : NoDup s → NoDup (JsSet.add y s).
Proof.
  intros Hnd. unfold JsSet.add, JsSet.has. case_bool_decide as Hy; [done|].
  apply NoDup_app. split_and!; [done| |apply NoDup_singleton].
  intros x Hx ->%list_elem_of_singleton. done.
Qed.

Section matching.
Context `{!Platform}.

Lemma normalizedHistory_elem ignoreParams historyUrls (s0 : gset string) k :
  k ∈ foldl (λ s hUrl, s ∪ {[ normalizeUrl hUrl ignoreParams ]}) s0 historyUrls
  ↔ k ∈ s0 ∨ ∃ h, h ∈ historyUrls ∧ normalizeUrl h ignoreParams = k.
Proof.
  revert s0. induction historyUrls as [|h hs IH]; intros s0; simpl.
  - split; [by left|]. intros [?|(h & Hh & _)]; [done|]. by apply elem_of_nil in Hh.
  - rewrite IH, elem_of_union, elem_of_singleton. setoid_rewrite elem_of_cons.
    naive_solver.
Qed.

Lemma on_history_elem ignoreParams domainUrls historyUrls visited x :
  x ∈ on_history ignoreParams domainUrls historyUrls visited
  ↔ x ∈ visited ∨ (x ∈ domainUrls ∧ matches ignoreParams historyUrls x).
Proof.
  unfold on_history, matches.
  revert visited. induction domainUrls as [|u us IH]; intros visited; simpl.
  - split; [by left|]. intros [?|[Hx _]]; [done|]. by apply elem_of_nil in Hx.
  - rewrite IH. setoid_rewrite elem_of_cons. case_bool_decide as Hu.
    + rewrite JsSet_add_elem. apply normalizedHistory_elem in Hu as [Hu|Hu].
      { by apply not_elem_of_empty in Hu. }
      naive_solver.
    + rewrite normalizedHistory_elem in Hu. naive_solver.
Qed.

Lemma on_history_NoDup ignoreParams domainUrls historyUrls visited :
  NoDup visited → NoDup (on_history ignoreParams domainUrls historyUrls visited).
Proof.
  unfold on_history. revert visited.
  induction domainUrls as [|u us IH]; intros visited Hnd; simpl; [done|].
  apply IH. case_bool_decide; [|done]. by apply JsSet_add_NoDup.
Qed.

Lemma answers_elem ignoreParams (answered : list (list string * list HistoryQuery * list string))
    visited x :
  x ∈ foldl (λ visited (a : _ * list string),
               on_history ignoreParams a.2 a.1.1 visited) visited answered
  ↔ x ∈ visited ∨ ∃ a, a ∈ answered ∧ x ∈ a.2 ∧ matches ignoreParams a.1.1 x.
Proof.
  revert visited. induction answered as [|a answered IH]; intros visited; simpl.
  - split; [by left|]. intros [?|(a & Ha & _)]; [done|]. by apply elem_of_nil in Ha.
  - rewrite IH, on_history_elem. setoid_rewrite elem_of_cons. naive_solver.
Qed.

Lemma answers_NoDup ignoreParams (answered : list (list string * list HistoryQuery * list string))
    visited :
  NoDup visited →
  NoDup (foldl (λ visited (a : _ * list string),
                  on_history ignoreParams a.2 a.1.1 visited) visited answered).
Proof.
  revert visited. induction answered as [|a answered IH]; intros visited Hnd; simpl.
  - done.
  - by apply IH, on_history_NoDup.
Qed.

(** Every callback that runs belongs to a query that was issued. *)
Lemma answered_issued {A} (l : list A) (order : list nat) a :
  a ∈ omap (λ i, l !! i) order → a ∈ l.
Proof.
  rewrite list_elem_of_omap. intros (i & _ & Hi). by eapply list_elem_of_lookup_2.
Qed.

(** When every query is answered, every callback runs. *)
Lemma answered_all {A} (l : list A) (order : list nat) a :
  order ≡ₚ seq 0 (length l) →
  a ∈ omap (λ i, l !! i) order ↔ a ∈ l.
Proof.
  intros Hperm. split; [apply answered_issued|].
  intros (i & Hi)%list_elem_of_lookup_1. apply list_elem_of_omap.
  exists i. split; [|done]. rewrite Hperm. apply elem_of_seq.
  apply lookup_lt_Some in Hi. lia.
Qed.

Lemma checkVisitedUrls_elem_issued hs urls ignoreParams order x :
  x ∈ (checkVisitedUrls hs urls ignoreParams order).1 →
  ∃ d us, (d, us) ∈ domainGroups urls ignoreParams ∧ x ∈ us
          ∧ matches ignoreParams (history_urls hs d) x.
Proof.
  unfold checkVisitedUrls. cbn [fst]. rewrite answers_elem.
  intros [Hx|(a & Ha & Hx & Hm)]; [by apply elem_of_nil in Hx|].
  apply answered_issued, list_elem_of_fmap in Ha as ([d us] & -> & Hg).
  by exists d, us.
Qed.

Lemma checkVisitedUrls_elem hs urls ignoreParams order x :
  order ≡ₚ seq 0 (length (domainGroups urls ignoreParams)) →
  x ∈ (checkVisitedUrls hs urls ignoreParams order).1
  ↔ ∃ d us, (d, us) ∈ domainGroups urls ignoreParams ∧ x ∈ us
            ∧ matches ignoreParams (history_urls hs d) x.
Proof.
  intros Hperm. split; [apply checkVisitedUrls_elem_issued|].
  intros (d & us & Hg & Hx & Hm).
  unfold checkVisitedUrls. cbn [fst]. rewrite answers_elem. right.
  exists (queryHistoryByDomain hs d, us). split; [|done].
  apply answered_all; [by rewrite length_fmap|].
  apply list_elem_of_fmap. by exists (d, us).
Qed.

(** What a domain query resolves with is what the store answers to the
    search for that domain over the whole history: the URLs of the items it
    returns, and nothing when the search fails. *)
Lemma history_urls_store hs domain h :
  h ∈ history_urls hs domain
  ↔ ∃ results, hs (mkQuery domain 10000%N 0%N) = Some results
               ∧ h ∈ item_url <$> results.
Proof.
  unfold history_urls, queryHistoryByDomain. cbn [fst].
  destruct (hs (mkQuery domain 10000%N 0%N)) as [results|].
  - split; [by exists results|]. by intros (? & [= <-] & ?).
  - split; [by intros ?%elem_of_nil|]. by intros (? & [=] & _).
Qed.

(** The visited candidates, in terms of the loop's own test: the ones the
    grouping kept whose key is the key of a URL in the history of their
    domain. *)
Lemma checkVisitedUrls_grouped hs urls ignoreParams order url :
  order ≡ₚ seq 0 (length (domainGroups urls ignoreParams)) →
  url ∈ (checkVisitedUrls hs urls ignoreParams order).1
  ↔ url ∈ urls ∧ grouped url
    ∧ ∃ domain, extractDomain url = Some domain
                ∧ matches ignoreParams (history_urls hs domain) url.
Proof.
  intros Hperm. rewrite checkVisitedUrls_elem by done. split.
  - intros (d & us & Hg & Hx & Hm).
    destruct (domainGroups_domain _ _ _ _ _ Hg Hx) as [Hgr Hd].
    assert (url ∈ urls ∧ grouped url) as [Hin _].
    { apply (domainGroups_elem urls ignoreParams). by exists d, us. }
    split_and!; [done..|]. by exists d.
  - intros (Hin & Hgr & d & Hd & Hm).
    destruct (proj2 (domainGroups_elem urls ignoreParams url)) as (d' & us & Hg & Hx); [done|].
    destruct (domainGroups_domain _ _ _ _ _ Hg Hx) as [_ Hd'].
    assert (d' = d) as -> by congruence.
    by exists d, us.
Qed.

(** C1: a candidate is reported visited exactly when it is a valid http(s)
    URL and the history store, searched for the candidate's domain over the
    whole history, returns an item whose URL has the same key under the same
    ignore list; the result holds the candidate strings themselves. *)
Theorem checkVisitedUrls_sound_complete hs urls ignoreParams order url :
  special_host_nonempty →
  order ≡ₚ seq 0 (length (domainGroups urls ignoreParams)) →
  url ∈ (checkVisitedUrls hs urls ignoreParams order).1
  ↔ url ∈ urls ∧ isValidHttpUrl url = true
    ∧ ∃ domain results h,
        extractDomain url = Some domain
        ∧ hs (mkQuery domain 10000%N 0%N) = Some results
        ∧ h ∈ item_url <$> results
        ∧ normalizeUrl h ignoreParams = normalizeUrl url ignoreParams.
Proof.
  intros Hlaw Hperm. rewrite checkVisitedUrls_grouped by done.
  rewrite (grouped_valid url Hlaw). unfold matches. split.
  - intros (Hin & Hv & d & Hd & h & (results & Hs & Hh)%history_urls_store & Heq).
    split_and!; [done..|]. by exists d, results, h.
  - intros (Hin & Hv & d & results & h & Hd & Hs & Hh & Heq).
    split_and!; [done..|]. exists d. split; [done|]. exists h. split; [|done].
    apply history_urls_store. by exists results.
Qed.

(** C10: the visited list has no URL twice and holds candidates of the input
    list only, whatever the input, the ignore list, the history store's
    answers and their order. *)
Theorem checkVisitedUrls_subset_NoDup hs urls ignoreParams order :
  NoDup (checkVisitedUrls hs urls ignoreParams order).1
  ∧ (checkVisitedUrls hs urls ignoreParams order).1 ⊆ urls.
Proof.
  split.
  - unfold checkVisitedUrls. cbn [fst]. apply answers_NoDup. constructor.
  - intros x (d & us & Hg & Hx & _)%checkVisitedUrls_elem_issued.
    apply (domainGroups_elem urls ignoreParams x). by exists d, us.
Qed.

(** C9, amended: across the groups every valid http(s) candidate occurs
    exactly as often as in the input list (so exactly once when the input has
    no duplicates), always in the group of its own domain, the groups have
    distinct domains, and nothing else is in a group. *)
Theorem domainGroups_partition urls ignoreParams :
  special_host_nonempty →
  mjoin (domainGroups urls ignoreParams).*2
    ≡ₚ filter (λ u, isValidHttpUrl u = true) urls
  ∧ NoDup (domainGroups urls ignoreParams).*1
  ∧ (∀ d us u, (d, us) ∈ domainGroups urls ignoreParams → u ∈ us →
       extractDomain u = Some d)
  ∧ (NoDup urls → NoDup (mjoin (domainGroups urls ignoreParams).*2)).
Proof.
  intros Hlaw.
  assert (mjoin (domainGroups urls ignoreParams).*2
            ≡ₚ filter (λ u, isValidHttpUrl u = true) urls) as Hperm.
  { rewrite domainGroups_perm. erewrite filter_ext_in; [done|].
    intros u _. by apply grouped_valid. }
  split_and!.
  - done.
  - apply domainGroups_keys.
  - intros d us u Hg Hu. by apply (domainGroups_domain _ _ _ _ _ Hg Hu).
  - intros Hnd. rewrite Hperm. by apply NoDup_filter.
Qed.

(** C3: with the flag [enabled] off the handler answers with an empty
    visited list and issues no history search, whatever the candidates. *)
Theorem handleCheckVisited_disabled st hs urls order :
  enabled (getConfig st) = false →
  handleCheckVisited st hs urls order
  = Return (mkResponse [] (getConfig st) None, []).
Proof. intros Hoff. unfold handleCheckVisited. by rewrite Hoff. Qed.

(** C2: when the history search of one domain fails, the handler still
    answers without error, and its visited list holds exactly the candidates
    of the other domains that have the key of an item the store returns to
    the search for their own domain: the failing domain contributes nothing
    and takes nothing away. *)
Theorem handleCheckVisited_failing_domain st hs urls order failing :
  special_host_nonempty →
  enabled (getConfig st) = true →
  order ≡ₚ seq 0 (length (domainGroups (default [] urls)
                                        (ignoreParams (getConfig st)))) →
  hs (mkQuery failing 10000%N 0%N) = None →
  ∃ resp trace,
    handleCheckVisited st hs urls order = Return (resp, trace)
    ∧ error resp = None
    ∧ ∀ url, url ∈ visitedUrls resp
        ↔ url ∈ default [] urls ∧ isValidHttpUrl url = true
          ∧ ∃ domain results h,
              extractDomain url = Some domain ∧ domain ≠ failing
              ∧ hs (mkQuery domain 10000%N 0%N) = Some results
              ∧ h ∈ item_url <$> results
              ∧ normalizeUrl h (ignoreParams (getConfig st))
                = normalizeUrl url (ignoreParams (getConfig st)).
Proof.
  intros Hlaw Hon Hperm Hfail. unfold handleCheckVisited. rewrite Hon.
  eexists _, _. split; [reflexivity|]. split; [done|]. intros url.
  cbn [visitedUrls]. rewrite checkVisitedUrls_grouped by done.
  rewrite (grouped_valid url Hlaw). unfold matches.
  split.
  - intros (Hin & Hv & d & Hd & h & (results & Hs & Hh)%history_urls_store & Heq).
    split_and!; [done..|].
    exists d, results, h. split_and!; try done. intros ->. congruence.
  - intros (Hin & Hv & d & results & h & Hd & _ & Hs & Hh & Heq).
    split_and!; [done..|].
    exists d. split; [done|]. exists h. split; [|done].
    apply history_urls_store. by exists results.
Qed.

End matching.

(** ** The reference platform obeys the laws *)

Module RefLaws.
Import RefPlatform.

Lemma occurs_app c a b : occurs c (a +:+ b) = occurs c a || occurs c b.
Proof.
  induction a as [|x a IH]; [done|].
  rewrite ?append_cons. simpl. by rewrite IH, orb_assoc.
Qed.

Lemma forallb_app P a b :
  string_forallb P (a +:+ b) = string_forallb P a && string_forallb P b.
Proof.
  induction a as [|x a IH]; [done|].
  rewrite ?append_cons. simpl. by rewrite IH, andb_assoc.
Qed.

Lemma forallb_occurs P c s :
  P c = false → string_forallb P s = true → occurs c s = false.
Proof.
  intros Hc. induction s as [|x s IH]; simpl; [done|].
  intros [Hx Hs]%andb_true_iff. rewrite IH by done.
  case_bool_decide; [|done]. congruence.
Qed.

Lemma forallb_impl (P Q : ascii → bool) s :
  (∀ c, P c = true → Q c = true) →
  string_forallb P s = true → string_forallb Q s = true.
Proof.
  intros HPQ. induction s as [|x s IH]; simpl; [done|].
  intros [Hx Hs]%andb_true_iff. by rewrite HPQ, IH.
Qed.

Lemma cut_occurs c s : occurs c (cut c s).1 = false.
Proof.
  induction s as [|x s IH]; simpl; [done|].
  case_bool_decide as Hx; simpl; [done|]. rewrite IH.
  by rewrite bool_decide_eq_false_2.
Qed.

Lemma cut_append c s :
  s = (cut c s).1 +:+ prefixed (String c "") (cut c s).2.
Proof.
  induction s as [|x s IH]; simpl; [done|].
  case_bool_decide as Hx; simpl; [by subst|].
  by rewrite append_cons, <-IH.
Qed.

Lemma cut_prefixed c a o :
  occurs c a = false → cut c (a +:+ prefixed (String c "") o) = (a, o).
Proof.
  induction a as [|x a IH]; simpl.
  - intros _. destruct o as [b|]; [|done].
    change (cut c (String c b) = ("", Some b)). simpl.
    by rewrite bool_decide_eq_true_2.
  - intros [Hx Ha]%orb_false_iff. rewrite ?append_cons. simpl.
    rewrite Hx, IH by done. done.
Qed.

Lemma cut_absent c s : occurs c s = false → cut c s = (s, None).
Proof.
  intros Hs. rewrite <-(append_nil_r s) at 1.
  by apply (cut_prefixed c s None).
Qed.

Lemma cut_first c a b :
  occurs c a = false → cut c (a +:+ String c b) = (a, Some b).
Proof. intros Ha. by apply (cut_prefixed c a (Some b)). Qed.

Lemma split_on_absent c s : occurs c s = false → split_on c s = [s].
Proof.
  induction s as [|x s IH]; simpl; [done|].
  intros [Hx Hs]%orb_false_iff. by rewrite Hx, IH.
Qed.

Lemma split_on_first c a b :
  occurs c a = false → split_on c (a +:+ String c b) = a :: split_on c b.
Proof.
  induction a as [|x a IH]; simpl.
  - intros _. change (split_on c (String c b) = "" :: split_on c b). simpl.
    by rewrite bool_decide_eq_true_2.
  - intros [Hx Ha]%orb_false_iff. rewrite ?append_cons. simpl.
    by rewrite Hx, IH.
Qed.

(** *** Form-urlencoding *)

Lemma encode_unit_encoded c : string_forallb encoded_unit (encode_unit c) = true.
Proof. destruct c as [[] [] [] [] [] [] [] []]; by vm_compute. Qed.

Lemma percent_encode_encoded s : string_forallb encoded_unit (percent_encode s) = true.
Proof.
  induction s as [|c s IH]; simpl; [done|].
  by rewrite forallb_app, encode_unit_encoded, IH.
Qed.

Lemma encoded_plain s :
  string_forallb encoded_unit s = true → string_forallb plain s = true.
Proof.
  apply forallb_impl. intros c. by destruct c as [[] [] [] [] [] [] [] []]; vm_compute.
Qed.

Lemma percent_decode_unit c rest :
  percent_decode (encode_unit c +:+ rest) = String c (percent_decode rest).
Proof. destruct c as [[] [] [] [] [] [] [] []]; reflexivity. Qed.

Lemma percent_decode_encode s : percent_decode (percent_encode s) = s.
Proof.
  induction s as [|c s IH]; simpl; [done|].
  by rewrite percent_decode_unit, IH.
Qed.

Lemma serialize_pair_encoded p :
  string_forallb (λ c, encoded_unit c || bool_decide (c = "="%char))
                 (serialize_pair p) = true.
Proof.
  unfold serialize_pair. rewrite !forallb_app, !andb_true_iff. split_and!; [|done|].
  - eapply forallb_impl; [|apply percent_encode_encoded]. intros c ->. done.
  - eapply forallb_impl; [|apply percent_encode_encoded]. intros c ->. done.
Qed.

Lemma parse_serialize_pair p : parse_pair (serialize_pair p) = p.
Proof.
  destruct p as [n v]. unfold parse_pair, serialize_pair. cbn [fst snd].
  change ("=" +:+ percent_encode v) with (String "=" (percent_encode v)).
  rewrite (cut_first "=" (percent_encode n) (percent_encode v)).
  - simpl. by rewrite !percent_decode_encode.
  - eapply forallb_occurs; [|apply percent_encode_encoded]. done.
Qed.

Lemma serialize_pair_nonempty p : serialize_pair p ≠ "".
Proof.
  unfold serialize_pair. destruct (percent_encode p.1); [|done].
  by rewrite append_cons.
Qed.

Lemma ref_urlencoded_roundtrip : urlencoded_roundtrip.
Proof.
  intros _ l _. unfold urlencoded_parse, urlencoded_serialize; simpl.
  unfold ref_urlencoded_parse, ref_urlencoded_serialize.
  induction l as [|p l IH]; [done|].
  assert (occurs "&" (serialize_pair p) = false) as Hamp.
  { eapply forallb_occurs; [|apply serialize_pair_encoded]. done. }
  destruct l as [|p' l].
  - simpl. rewrite split_on_absent by done.
    rewrite filter_cons, decide_True by apply serialize_pair_nonempty.
    by rewrite filter_nil, fmap_cons, parse_serialize_pair.
  - change (join "&" (serialize_pair <$> p :: p' :: l))
      with (serialize_pair p +:+ String "&" (join "&" (serialize_pair <$> p' :: l))).
    rewrite split_on_first by done.
    rewrite filter_cons, decide_True by apply serialize_pair_nonempty.
    by rewrite fmap_cons, parse_serialize_pair, IH.
Qed.

Lemma ref_urlencoded_parse_empty : urlencoded_parse_empty.
Proof. done. Qed.

Lemma ref_urlencoded_serialize_plain l :
  string_forallb plain (ref_urlencoded_serialize l) = true
  ∧ occurs "#" (ref_urlencoded_serialize l) = false.
Proof.
  assert (string_forallb (λ c, encoded_unit c || bool_decide (c = "="%char)
                               || bool_decide (c = "&"%char))
                         (ref_urlencoded_serialize l) = true) as Hall.
  { unfold ref_urlencoded_serialize. induction l as [|p l IH]; [done|].
    assert (string_forallb (λ c, encoded_unit c || bool_decide (c = "="%char)
                               || bool_decide (c = "&"%char))
                           (serialize_pair p) = true) as Hp.
    { eapply forallb_impl; [|apply serialize_pair_encoded]. by intros c ->. }
    destruct l as [|p' l]; [done|].
    change (join "&" (serialize_pair <$> p :: p' :: l))
      with (serialize_pair p +:+ String "&" (join "&" (serialize_pair <$> p' :: l))).
    rewrite forallb_app, Hp. simpl. exact IH. }
  split.
  - eapply forallb_impl; [|exact Hall].
    intros c. by destruct c as [[] [] [] [] [] [] [] []]; vm_compute.
  - eapply forallb_occurs; [|exact Hall]. done.
Qed.

(** *** The URL parser *)

Lemma serialize_url_shape sch h p q f :
  serialize_url (mkURL sch "" "" (Some h) None (String "/" p) q f)
  = (origin_path sch h p +:+ prefixed "?" q) +:+ prefixed "#" f.
Proof.
  unfold serialize_url, origin_path. simpl.
  rewrite append_nil_r, ?append_assoc. f_equal.
  rewrite !append_cons, append_assoc. reflexivity.
Qed.

Lemma no_dot_segment_slash s :
  no_dot_segment s = true → no_dot_segment (s +:+ "/") = true.
Proof.
  induction s as [|a s IH]; [done|]. simpl.
  intros [Ha Hs]%andb_true_iff. rewrite IH by done.
  case_bool_decide; [|done]. destruct s; simpl in *; [done|].
  by rewrite Ha.
Qed.

Lemma valid_host_nonempty h : valid_host h = true → h ≠ "".
Proof. by destruct h. Qed.

Lemma valid_host_no_slash h : valid_host h = true → occurs "/" h = false.
Proof.
  intros [Hh _]%andb_true_iff. eapply forallb_occurs; [|exact Hh]. done.
Qed.

Lemma after_slashes_Some s authority :
  after_slashes s = Some authority → s = String "/" (String "/" authority).
Proof.
  destruct s as [|a [|b s]]; simpl; try done.
  destruct (bool_decide_reflect (a = "/"%char)), (bool_decide_reflect (b = "/"%char));
    simpl; intros; by simplify_eq.
Qed.

(** Parsing the serialization of well-formed http(s) components. *)
Lemma ref_parse_build sch h p q f :
  sch = "http" ∨ sch = "https" →
  valid_host h = true →
  string_forallb plain (h +:+ String "/" p) = true →
  occurs "?" (h +:+ String "/" p) = false →
  occurs "#" (h +:+ String "/" p) = false →
  no_dot_segment (String "/" (String "/" (h +:+ String "/" p))) = true →
  opt_forallb (λ s, string_forallb plain s && negb (occurs "#" s)) q = true →
  opt_forallb (string_forallb plain) f = true →
  ref_url_parse (serialize_url (mkURL sch "" "" (Some h) None (String "/" p) q f))
  = Some (mkURL sch "" "" (Some h) None (String "/" p) q f).
Proof.
  intros Hsch Hh Hplain Hq Hf Hdot Hq' Hf'.
  rewrite serialize_url_shape. unfold ref_url_parse.
  assert (occurs "#" (origin_path sch h p) = false
          ∧ occurs "?" (origin_path sch h p) = false
          ∧ string_forallb plain (origin_path sch h p) = true
          ∧ cut ":" (origin_path sch h p)
            = (sch, Some (String "/" (String "/" (h +:+ String "/" p))))
          ∧ valid_scheme sch = true ∧ is_special sch = true)
    as (Ho1 & Ho2 & Ho3 & Ho4 & Ho5 & Ho6).
  { unfold origin_path. destruct Hsch as [-> | ->]; simpl; by rewrite ?Hq, ?Hf, ?Hplain. }
  assert (occurs "#" (prefixed "?" q) = false
          ∧ string_forallb plain (prefixed "?" q) = true) as [Hq1 Hq2].
  { destruct q as [q|]; [|done].
    change (prefixed "?" (Some q)) with (String "?" q). simpl in *.
    apply andb_true_iff in Hq' as [Hq1 Hq2]. apply negb_true_iff in Hq2.
    by rewrite Hq1, Hq2. }
  assert (string_forallb plain (prefixed "#" f) = true) as Hf2.
  { destruct f as [f|]; [|done].
    change (prefixed "#" (Some f)) with (String "#" f). simpl in *. by rewrite Hf'. }
  rewrite (cut_prefixed "#" _ f) by (by rewrite occurs_app, Ho1, Hq1).
  cbn [fst snd]. rewrite (cut_prefixed "?" _ q) by done.
  cbn [fst snd]. rewrite Ho4. cbn [fst snd].
  rewrite Ho5, !forallb_app, Ho3, Hq2, Hf2, Hdot. simpl.
  rewrite (cut_first "/" h p) by by apply valid_host_no_slash.
  cbn [fst snd]. by rewrite Hh.
Qed.

(** What the parser made of an input it read as an http(s) URL. *)
Lemma ref_parse_http input r :
  ref_url_parse input = Some r → is_http r →
  ∃ h p,
    r = mkURL (scheme r) "" "" (Some h) None (String "/" p) (query r) (fragment r)
    ∧ valid_host h = true
    ∧ string_forallb plain (h +:+ String "/" p) = true
    ∧ occurs "?" (h +:+ String "/" p) = false
    ∧ occurs "#" (h +:+ String "/" p) = false
    ∧ no_dot_segment (String "/" (String "/" (h +:+ String "/" p))) = true
    ∧ opt_forallb (string_forallb plain) (fragment r) = true.
Proof.
  unfold ref_url_parse. intros Hparse Hhttp.
  pose proof (cut_append "#" input) as Hinput.
  pose proof (cut_occurs "#" input) as Hf1.
  pose proof (cut_append "?" (cut "#" input).1) as Hfq.
  pose proof (cut_occurs "?" (cut "#" input).1) as Hq1.
  pose proof (cut_append ":" (cut "?" (cut "#" input).1).1) as Hqs.
  destruct (cut "#" input) as [f1 f]. cbn [fst snd] in *.
  destruct (cut "?" f1) as [q1 q]. cbn [fst snd] in *.
  destruct (cut ":" q1) as [sch [rest|]]; cbn [fst snd] in *; [|done].
  destruct (valid_scheme sch && string_forallb plain input && no_dot_segment rest)
    eqn:Hchecks; [|done].
  apply andb_true_iff in Hchecks as [[Hsch Hplain]%andb_true_iff Hdot].
  assert (is_special sch = true) as Hspecial.
  { assert (scheme r = sch) as Hs.
    { destruct (after_slashes rest); [destruct (valid_host _)|destruct (is_special sch)];
        by simplify_eq. }
    apply is_http_scheme in Hhttp. rewrite Hs in Hhttp. by destruct Hhttp as [-> | ->]. }
  rewrite Hspecial in Hparse.
  destruct (after_slashes rest) as [authority|] eqn:Hauth; [|done].
  apply after_slashes_Some in Hauth as ->.
  pose proof (cut_append "/" authority) as Hah.
  destruct (cut "/" authority) as [h po]. cbn [fst snd] in *.
  destruct (valid_host h) eqn:Hh; [|done].
  simplify_eq. simpl in *.
  rewrite !forallb_app in Hplain. rewrite !occurs_app in Hf1.
  rewrite !occurs_app in Hq1. simpl in *.
  apply andb_true_iff in Hplain as [[Hp1 Hp2]%andb_true_iff Hp3].
  apply andb_true_iff in Hp1 as [Hp0 Hp1]. simpl in Hp1.
  apply orb_false_iff in Hf1 as [[_ Hf1]%orb_false_iff _].
  apply orb_false_iff in Hq1 as [_ Hq1].
  simpl in Hf1, Hq1.
  destruct po as [p|]; simpl in *.
  - exists h, p. split_and!; try done. by destruct f.
  - rewrite append_nil_r in *. exists h, "". split_and!; try done.
    + by rewrite forallb_app, Hp1.
    + by rewrite occurs_app, Hq1.
    + by rewrite occurs_app, Hf1.
    + by apply (no_dot_segment_slash (String "/" (String "/" h))).
    + by destruct f.
Qed.

Lemma ref_special_host_nonempty : special_host_nonempty.
Proof.
  intros url r Hparse Hhttp.
  destruct (ref_parse_http url r Hparse Hhttp) as (h & p & Hr & Hh & _).
  exists h. split; [by rewrite Hr|]. by apply valid_host_nonempty.
Qed.

Lemma ref_href_reparses : href_reparses.
Proof.
  intros url r l Hparse Hhttp _.
  destruct (ref_parse_http url r Hparse Hhttp)
    as (h & p & Hr & Hh & Hplain & Hq & Hf & Hdot & Hfrag).
  rewrite Hr. unfold set_query. cbn [scheme username password host port path fragment].
  apply ref_parse_build; try done.
  - by apply is_http_scheme.
  - unfold query_of_list. case_bool_decide; [done|]. simpl.
    destruct (ref_urlencoded_serialize_plain l) as [-> ->]. done.
Qed.

End RefLaws.

(** ** The scenarios, on the reference platform *)

Import RefPlatform.

Lemma is_http_https r : scheme r = "https" → is_http r.
Proof. intros Hs. apply is_http_scheme. by right. Qed.

Example scenario_ignored_parameter :
  (checkVisitedUrls demo_history
     ["https://x.com/a?utm_source=x"; "https://x.com/a"] ["utm_source"] [0]).1
  = ["https://x.com/a?utm_source=x"; "https://x.com/a"].
Proof. by vm_compute. Qed.

Example scenario_parameter_order :
  (checkVisitedUrls demo_history ["https://x.com/list?b=2&a=1"] [] [0]).1
  = ["https://x.com/list?b=2&a=1"].
Proof. by vm_compute. Qed.

Example scenario_javascript :
  checkVisitedUrls demo_history ["javascript:void(0)"] [] [] = ([], []).
Proof. by vm_compute. Qed.

Example scenario_two_domains :
  handleCheckVisited demo_storage demo_history (Some demo_urls) [1; 0]
  = Return (mkResponse
              ["https://x.com/a?utm_source=x"; "https://x.com/a";
               "https://x.com/list?b=2&a=1"]
              (mkConfig true ["utm_source"] "#C58AF9") None,
            [mkQuery "x.com" 10000 0; mkQuery "y.com" 10000 0]).
Proof. by vm_compute. Qed.

(** The scenario of C1: an ignored parameter, two domains, answers out of
    order. *)
Lemma checkVisitedUrls_sound_complete_witness :
  "https://x.com/a?utm_source=x"
    ∈ (checkVisitedUrls demo_history demo_urls ["utm_source"] [1; 0]).1
  ∧ "https://y.com/"
    ∉ (checkVisitedUrls demo_history demo_urls ["utm_source"] [1; 0]).1.
Proof.
  split.
  - apply (checkVisitedUrls_sound_complete (H := ref_platform)).
    + exact RefLaws.ref_special_host_nonempty.
    + vm_compute. apply perm_swap.
    + split_and!; [by apply (bool_decide_unpack _)|reflexivity|].
      exists "x.com",
        [mkItem "https://x.com/a" "A"; mkItem "https://x.com/list?a=1&b=2" "List"],
        "https://x.com/a".
      split_and!; [reflexivity|reflexivity|left|reflexivity].
  - intros Hin.
    apply (checkVisitedUrls_sound_complete (H := ref_platform)) in Hin
      as (_ & _ & domain & results & h & [= <-] & [=] & _).
    + exact RefLaws.ref_special_host_nonempty.
    + vm_compute. apply perm_swap.
Defined.

(** The scenario of C2: the search for y.com fails, x.com is answered. *)
Lemma handleCheckVisited_failing_domain_witness :
  ∃ resp trace,
    handleCheckVisited demo_storage demo_history (Some demo_urls) [1; 0]
    = Return (resp, trace)
    ∧ error resp = None
    ∧ "https://x.com/list?b=2&a=1" ∈ visitedUrls resp
    ∧ "https://y.com/" ∉ visitedUrls resp.
Proof.
  destruct (handleCheckVisited_failing_domain (H := ref_platform)
              demo_storage demo_history (Some demo_urls) [1; 0] "y.com")
    as (resp & trace & Hret & Herr & Hvisited).
  - exact RefLaws.ref_special_host_nonempty.
  - reflexivity.
  - vm_compute. apply perm_swap.
  - reflexivity.
  - exists resp, trace. split_and!; [done..| |].
    + apply Hvisited.
      split_and!; [by apply (bool_decide_unpack _)|reflexivity|].
      exists "x.com",
        [mkItem "https://x.com/a" "A"; mkItem "https://x.com/list?a=1&b=2" "List"],
        "https://x.com/list?a=1&b=2".
      split_and!; [reflexivity|done|reflexivity|right; left|reflexivity].
    + intros (_ & _ & domain & results & h & [= <-] & Hne & _)%Hvisited. done.
Defined.

(** The scenario of C3: candidates are given, the feature is off. *)
Lemma handleCheckVisited_disabled_witness :
  handleCheckVisited disabled_storage demo_history (Some demo_urls) [1; 0]
  = Return (mkResponse [] (mkConfig false ["utm_source"] "#C58AF9") None, []).
Proof.
  apply (handleCheckVisited_disabled (H := ref_platform)
           disabled_storage demo_history (Some demo_urls) [1; 0]).
  reflexivity.
Defined.



(** The parameter [UTM_Source] goes when [utm_source] is ignored, whatever
    its value. *)
Lemma normalizeUrl_ignores_witness :
  normalizeUrl "https://x.com/a?UTM_Source=x&b=1" ["utm_source"]
    = "https://x.com/a?b=1"
  ∧ (∀ p, p ∈ stable_sort (kept ["utm_source"] [("UTM_Source", "x"); ("b", "1")])
          ↔ p ∈ [("UTM_Source", "x"); ("b", "1")] ∧ ¬ ignored ["utm_source"] p.1)
  ∧ (∃ r1, url_parse (normalizeUrl "https://x.com/a?UTM_Source=x&b=1" ["utm_source"])
             = Some r1
           ∧ ∀ p, p ∈ query_list r1 → ¬ ignored ["utm_source"] p.1)
  ∧ normalizeUrl "https://x.com/a?UTM_Source=y&b=1" ["utm_source"]
    = normalizeUrl "https://x.com/a?UTM_Source=x&b=1" ["utm_source"].
Proof.
  destruct (normalizeUrl_ignores (H := ref_platform)
              "https://x.com/a?UTM_Source=x&b=1"
              (mkURL "https" "" "" (Some "x.com") None "/a"
                     (Some "UTM_Source=x&b=1") None)
              ["utm_source"])
    as (Hkey & Hkept & Hparsed & Hvalues).
  { by vm_compute. }
  { by apply is_http_https. }
  split_and!.
  - rewrite Hkey. by vm_compute.
  - exact Hkept.
  - apply Hparsed.
    + exact RefLaws.ref_href_reparses.
    + exact RefLaws.ref_urlencoded_roundtrip.
    + exact RefLaws.ref_urlencoded_parse_empty.
  - eapply Hvalues.
    + by vm_compute.
    + reflexivity.
    + vm_compute query_list. repeat constructor; simpl; try done.
      intros Hn. exfalso. apply Hn. exists "utm_source". split; [left|done].
Defined.

(** A URL whose query is rewritten, sorted and stripped by the first pass. *)
Lemma normalizeUrl_idempotent_witness :
  normalizeUrl (normalizeUrl "https://x.com/a?b=2&UTM_Source=x&a=%41+b#top"
                             ["utm_source"]) ["utm_source"]
  = normalizeUrl "https://x.com/a?b=2&UTM_Source=x&a=%41+b#top" ["utm_source"].
Proof.
  apply (normalizeUrl_idempotent (H := ref_platform)).
  - exact RefLaws.ref_href_reparses.
  - exact RefLaws.ref_urlencoded_roundtrip.
  - exact RefLaws.ref_urlencoded_parse_empty.
Defined.

(** A script URL and a string that is no URL at all. *)
Lemma normalizeUrl_passthrough_witness :
  normalizeUrl_c "javascript:void(0)" ["utm_source"] = Return "javascript:void(0)"
  ∧ normalizeUrl_c "not a url" ["utm_source"] = Return "not a url"
  ∧ isValidHttpUrl_c "javascript:void(0)" = Return false.
Proof.
  split_and!.
  - apply (normalizeUrl_passthrough (H := ref_platform)). right.
    eexists. split; [by vm_compute|done].
  - apply (normalizeUrl_passthrough (H := ref_platform)). by left.
  - by vm_compute.
Defined.

(** C8: the key of a URL with an empty fragment keeps the trailing hash, so
    it differs from the key of the same URL without it; a fragment that is
    not empty is kept as well. *)
Lemma normalizeUrl_empty_fragment_kept :
  normalizeUrl "https://x.com/a#" [] = "https://x.com/a#"
  ∧ normalizeUrl "https://x.com/a" [] = "https://x.com/a"
  ∧ normalizeUrl "https://x.com/a#top" [] = "https://x.com/a#top"
  ∧ (checkVisitedUrls demo_history ["https://x.com/a#"] [] [0]).1 = [].
Proof. by vm_compute. Qed.

(** C9, as stated: a candidate given twice is twice in its group. *)
Lemma domainGroups_partition_counterexample :
  isValidHttpUrl "https://x.com/a" = true
  ∧ domainGroups ["https://x.com/a"; "https://x.com/a"] []
    = [("x.com", ["https://x.com/a"; "https://x.com/a"])]
  ∧ ¬ NoDup (mjoin (domainGroups ["https://x.com/a"; "https://x.com/a"] []).*2).
Proof.
  split_and!; [by vm_compute..|].
  assert (mjoin (domainGroups ["https://x.com/a"; "https://x.com/a"] []).*2
          = ["https://x.com/a"; "https://x.com/a"]) as -> by by vm_compute.
  intros Hnd. apply NoDup_cons in Hnd as [Hnot _]. apply Hnot. left.
Qed.

(** The candidates of the scenarios, all different. *)
Lemma domainGroups_partition_witness :
  mjoin (domainGroups demo_urls ["utm_source"]).*2
    ≡ₚ filter (λ u, isValidHttpUrl u = true) demo_urls
  ∧ NoDup (domainGroups demo_urls ["utm_source"]).*1
  ∧ (∀ d us u, (d, us) ∈ domainGroups demo_urls ["utm_source"] → u ∈ us →
       extractDomain u = Some d)
  ∧ (NoDup demo_urls → NoDup (mjoin (domainGroups demo_urls ["utm_source"]).*2)).
Proof.
  apply (domainGroups_partition (H := ref_platform)).
  exact RefLaws.ref_special_host_nonempty.
Defined.

(** * More properties of the normalizer and the matcher *)

Section normalizer_more.
Context `{!Platform}.

Lemma ignored_mono ignoreParams ignoreParams' n :
  ignoreParams ⊆ ignoreParams' →
  ignored ignoreParams n → ignored ignoreParams' n.
Proof. intros Hsub (i & Hi & Heq). exists i. split; [by apply Hsub|done]. Qed.

Lemma normalized_absorb r ignoreParams ignoreParams' :
  ignoreParams ⊆ ignoreParams' →
  urlencoded_roundtrip → urlencoded_parse_empty →
  normalized (normalized r ignoreParams) ignoreParams' = normalized r ignoreParams'.
Proof.
  intros Hsub Hrt Hemp. unfold normalized at 1.
  rewrite query_list_normalized by done.
  assert (stable_sort (kept ignoreParams'
                         (stable_sort (kept ignoreParams (query_list r))))
          = stable_sort (kept ignoreParams' (query_list r))) as ->.
  { apply stable_sort_eq_iff. intros n.
    rewrite !kept_named, stable_sort_named, kept_named.
    destruct (decide (ignored ignoreParams' n)) as [|Hn']; [done|].
    destruct (decide (ignored ignoreParams n)) as [Hn|]; [|done].
    exfalso. by eapply Hn', ignored_mono. }
  unfold normalized. by rewrite set_query_set_query.
Qed.

(** X1: normalizing keeps a string as valid or invalid as it was, and keeps
    its domain. *)
Theorem normalizeUrl_keeps_domain url ignoreParams :
  href_reparses →
  isValidHttpUrl (normalizeUrl url ignoreParams) = isValidHttpUrl url
  ∧ extractDomain (normalizeUrl url ignoreParams) = extractDomain url.
Proof.
  intros Hre.
  destruct (url_parse url) as [r|] eqn:Hparse.
  - destruct (decide (is_http r)) as [Hhttp|Hhttp].
    + rewrite (normalizeUrl_http url r) by done.
      assert (url_parse (serialize_url (normalized r ignoreParams))
              = Some (normalized r ignoreParams)) as Hre1.
      { apply (Hre url); [done..|]. apply sorted_kept_subseteq. }
      split.
      * assert (isValidHttpUrl url = true) as ->.
        { apply isValidHttpUrl_spec. by exists r. }
        apply isValidHttpUrl_spec. by exists (normalized r ignoreParams).
      * by rewrite !extractDomain_spec, Hre1, Hparse.
    + by rewrite (normalizeUrl_not_http url) by (intros; by simplify_eq).
  - by rewrite (normalizeUrl_not_http url) by (intros; by simplify_eq).
Qed.

Lemma normalizeUrl_absorb url ignoreParams ignoreParams' :
  ignoreParams ⊆ ignoreParams' →
  href_reparses → urlencoded_roundtrip → urlencoded_parse_empty →
  normalizeUrl (normalizeUrl url ignoreParams) ignoreParams'
  = normalizeUrl url ignoreParams'.
Proof.
  intros Hsub Hre Hrt Hemp.
  destruct (url_parse url) as [r|] eqn:Hparse.
  - destruct (decide (is_http r)) as [Hhttp|Hhttp].
    + rewrite (normalizeUrl_http url r ignoreParams) by done.
      rewrite (normalizeUrl_http _ (normalized r ignoreParams)).
      * rewrite normalized_absorb by done. by rewrite (normalizeUrl_http url r).
      * apply (Hre url); [done..|]. apply sorted_kept_subseteq.
      * done.
    + by rewrite (normalizeUrl_not_http url ignoreParams) by (intros; by simplify_eq).
  - by rewrite (normalizeUrl_not_http url ignoreParams) by (intros; by simplify_eq).
Qed.

Lemma normalizeUrl_mono url url' ignoreParams ignoreParams' :
  ignoreParams ⊆ ignoreParams' →
  href_reparses → urlencoded_roundtrip → urlencoded_parse_empty →
  normalizeUrl url ignoreParams = normalizeUrl url' ignoreParams →
  normalizeUrl url ignoreParams' = normalizeUrl url' ignoreParams'.
Proof.
  intros Hsub Hre Hrt Hemp Heq.
  rewrite <-(normalizeUrl_absorb url ignoreParams ignoreParams') by done.
  rewrite <-(normalizeUrl_absorb url' ignoreParams ignoreParams') by done.
  by rewrite Heq.
Qed.

(** X2: normalizing with an ignore list and then with a larger one gives
    the key of the larger list; so two strings with the same key under a
    list have the same key under every larger list. *)
Theorem normalizeUrl_ignore_more url ignoreParams ignoreParams' :
  ignoreParams ⊆ ignoreParams' →
  href_reparses → urlencoded_roundtrip → urlencoded_parse_empty →
  normalizeUrl (normalizeUrl url ignoreParams) ignoreParams'
  = normalizeUrl url ignoreParams'
  ∧ ∀ url', normalizeUrl url ignoreParams = normalizeUrl url' ignoreParams →
            normalizeUrl url ignoreParams' = normalizeUrl url' ignoreParams'.
Proof.
  intros Hsub Hre Hrt Hemp. split.
  - by apply normalizeUrl_absorb.
  - intros url' Heq. by apply (normalizeUrl_mono _ _ ignoreParams).
Qed.

(** X3: the key depends on the ignore list only through the set of its
    lower-cased entries: their order, their repetition and their case do
    not matter. *)
Theorem normalizeUrl_ignore_set url ignoreParams ignoreParams' :
  (∀ x, x ∈ toLowerCase <$> ignoreParams ↔ x ∈ toLowerCase <$> ignoreParams') →
  normalizeUrl url ignoreParams = normalizeUrl url ignoreParams'.
Proof.
  intros Hset.
  assert (∀ n, ignored ignoreParams n ↔ ignored ignoreParams' n) as Hign.
  { intros n. unfold ignored. specialize (Hset (toLowerCase n)).
    rewrite !list_elem_of_fmap in Hset. naive_solver. }
  destruct (url_parse url) as [r|] eqn:Hparse.
  - destruct (decide (is_http r)) as [Hhttp|Hhttp].
    + rewrite !(normalizeUrl_http url r) by done. unfold normalized, kept.
      do 4 f_equal. apply filter_ext_in. intros p _. by rewrite Hign.
    + by rewrite !(normalizeUrl_not_http url) by (intros; by simplify_eq).
  - by rewrite !(normalizeUrl_not_http url) by (intros; by simplify_eq).
Qed.

(** X4: the query parameters of the key of an http(s) URL are in ascending
    order of name. *)
Theorem normalizeUrl_sorted url r ignoreParams :
  href_reparses → urlencoded_roundtrip → urlencoded_parse_empty →
  url_parse url = Some r → is_http r →
  ∃ r1, url_parse (normalizeUrl url ignoreParams) = Some r1
        ∧ StronglySorted name_le (query_list r1).
Proof.
  intros Hre Hrt Hemp Hparse Hhttp. exists (normalized r ignoreParams). split.
  - rewrite (normalizeUrl_http url r) by done.
    apply (Hre url); [done..|]. apply sorted_kept_subseteq.
  - rewrite query_list_normalized by done. apply stable_sort_sorted.
Qed.

End normalizer_more.

Section matcher_more.
Context `{!Platform}.

Lemma group_urls_ignore_irrelevant ignoreParams ignoreParams' urls st st' :
  st.1 = st'.1 →
  (foldl (group_step ignoreParams) st urls).1
  = (foldl (group_step ignoreParams') st' urls).1.
Proof.
  revert st st'. induction urls as [|url urls IH]; intros st st' Hst; simpl; [done|].
  apply IH. by rewrite !group_step_fst, Hst.
Qed.

(** The groups do not depend on the ignore list. *)
Lemma domainGroups_ignore_irrelevant urls ignoreParams ignoreParams' :
  domainGroups urls ignoreParams = domainGroups urls ignoreParams'.
Proof. by apply group_urls_ignore_irrelevant. Qed.

Lemma push_nonempty k x (m : JsMap.t (list string)) :
  Forall (λ g, g.2 ≠ []) m → Forall (λ g, g.2 ≠ []) (JsMap.push k x m).
Proof.
  induction 1 as [|[k' xs] m Hxs Hm IH]; rewrite push_unfold.
  { by repeat constructor. }
  destruct (decide (k' = k)) as [->|Hne]; constructor; simpl in *; try done.
  by destruct xs.
Qed.

Lemma group_urls_nonempty ignoreParams urls st :
  Forall (λ g, g.2 ≠ []) st.1 →
  Forall (λ g, g.2 ≠ []) (foldl (group_step ignoreParams) st urls).1.
Proof.
  revert st. induction urls as [|url urls IH]; intros st Hst; simpl; [done|].
  apply IH. rewrite group_step_fst. case_decide; [|done]. by apply push_nonempty.
Qed.

(** A domain has a group exactly when some candidate kept by the loop is of
    that domain. *)
Lemma domainGroups_key urls ignoreParams d :
  d ∈ (domainGroups urls ignoreParams).*1
  ↔ ∃ u, u ∈ urls ∧ grouped u ∧ extractDomain u = Some d.
Proof.
  split.
  - intros ([d' us] & -> & Hg)%list_elem_of_fmap. simpl.
    pose proof (group_urls_nonempty ignoreParams urls ([], []) (Forall_nil_2 _)) as Hne.
    rewrite Forall_forall in Hne. specialize (Hne _ Hg). simpl in Hne.
    destruct us as [|u us]; [done|].
    destruct (domainGroups_domain _ _ _ _ u Hg) as [Hgr Hd]; [left|].
    exists u. split_and!; [|done..].
    apply (domainGroups_elem urls ignoreParams u). exists d', (u :: us).
    split; [done|left].
  - intros (u & Hu & Hgr & Hd).
    destruct (proj2 (domainGroups_elem urls ignoreParams u)) as (d' & us & Hg & Hx); [done|].
    destruct (domainGroups_domain _ _ _ _ _ Hg Hx) as [_ Hd'].
    assert (d' = d) as -> by congruence.
    apply list_elem_of_fmap. by exists (d, us).
Qed.

Lemma checkVisitedUrls_searches hs urls ignoreParams order :
  (checkVisitedUrls hs urls ignoreParams order).2
  = (λ d, mkQuery d 10000 0) <$> (domainGroups urls ignoreParams).*1.
Proof.
  unfold checkVisitedUrls. cbn [snd].
  induction (domainGroups urls ignoreParams) as [|[d us] groups IH]; [done|].
  rewrite !fmap_cons. simpl. by rewrite IH.
Qed.

(** X5: the history is searched once per distinct domain of the valid
    http(s) candidates and for nothing else, always over the whole history
    with a cap of 10000 results. *)
Theorem checkVisitedUrls_one_search_per_domain hs urls ignoreParams order :
  special_host_nonempty →
  NoDup (checkVisitedUrls hs urls ignoreParams order).2
  ∧ ∀ q, q ∈ (checkVisitedUrls hs urls ignoreParams order).2
         ↔ maxResults q = 10000%N ∧ startTime q = 0%N
           ∧ ∃ u, u ∈ urls ∧ isValidHttpUrl u = true
                  ∧ extractDomain u = Some (text q).
Proof.
  intros Hlaw. rewrite checkVisitedUrls_searches. split.
  - apply NoDup_fmap_2; [|apply domainGroups_keys]. by intros d d' [=].
  - intros q. rewrite list_elem_of_fmap. setoid_rewrite domainGroups_key.
    setoid_rewrite (λ u, grouped_valid u Hlaw). split.
    + intros (d & -> & u & Hu). simpl. eauto.
    + intros (Hmax & Hstart & u & Hu). exists (text q). split; [|eauto].
      destruct q. simpl in *. by subst.
Qed.

(** X6: the order in which the history store answers changes the order of
    the visited array only: the same URLs are reported and the same
    searches are issued. *)
Theorem checkVisitedUrls_order_irrelevant hs urls ignoreParams order order' :
  order ≡ₚ seq 0 (length (domainGroups urls ignoreParams)) →
  order' ≡ₚ seq 0 (length (domainGroups urls ignoreParams)) →
  (checkVisitedUrls hs urls ignoreParams order).1
    ≡ₚ (checkVisitedUrls hs urls ignoreParams order').1
  ∧ (checkVisitedUrls hs urls ignoreParams order).2
    = (checkVisitedUrls hs urls ignoreParams order').2.
Proof.
  intros Hperm Hperm'. split; [|by rewrite !checkVisitedUrls_searches].
  apply NoDup_Permutation.
  - unfold checkVisitedUrls. cbn [fst]. apply answers_NoDup. constructor.
  - unfold checkVisitedUrls. cbn [fst]. apply answers_NoDup. constructor.
  - intros x. by rewrite !checkVisitedUrls_elem.
Qed.

(** X7: ignoring more parameters never takes a URL out of the visited
    set. *)
Theorem checkVisitedUrls_ignore_more hs urls ignoreParams ignoreParams' order url :
  ignoreParams ⊆ ignoreParams' →
  href_reparses → urlencoded_roundtrip → urlencoded_parse_empty →
  order ≡ₚ seq 0 (length (domainGroups urls ignoreParams)) →
  url ∈ (checkVisitedUrls hs urls ignoreParams order).1 →
  url ∈ (checkVisitedUrls hs urls ignoreParams' order).1.
Proof.
  intros Hsub Hre Hrt Hemp Hperm.
  rewrite !checkVisitedUrls_grouped;
    [|by rewrite (domainGroups_ignore_irrelevant urls ignoreParams' ignoreParams)|done].
  intros (Hin & Hgr & d & Hd & h & Hh & Heq). split_and!; [done..|].
  exists d. split; [done|]. exists h. split; [done|].
  by apply (normalizeUrl_mono _ _ ignoreParams).
Qed.

End matcher_more.

(** * The background worker's listeners *)

Section background_properties.
Context `{!Platform}.

Lemma handleCheckVisited_returns st hs urls order :
  ∃ r, handleCheckVisited st hs urls order = Return r.
Proof.
  unfold handleCheckVisited. destruct (enabled (getConfig st)); simpl; eauto.
Qed.



(** X8: no listener ever stores into the history cache: an event leaves it
    with a subset of its entries, and over every run of events from the
    worker's start it is empty. *)
Theorem historyCache_never_filled (events : list (World * BgEvent)) w e
    (historyCache : HistoryCache) :
  bg_step historyCache (w, e) ⊆ historyCache ∧ bg_run events = ∅.
Proof.
  assert (∀ (c : HistoryCache) we, bg_step c we ⊆ c) as Hstep.
  { intros c [w' e']. unfold bg_step. cbn [fst snd]. destruct e' as [m s|t|t].
    - unfold onMessage. repeat case_bool_decide; simpl.
      + by destruct (handleCheckVisited _ _ _ _).
      + done.
      + apply map_empty_subseteq.
      + destruct (sender_tab s) as [tab|]; [|done].
        destruct (tab_id tab); [apply delete_subseteq|done].
      + done.
    - unfold onActivated. destruct (w_get w' t) as [[tab|]|]; simpl; try done.
      destruct (tab_url tab); [|done]. destruct (_ && _); simpl; [|done].
      apply delete_subseteq.
    - apply delete_subseteq. }
  split; [apply Hstep|].
  unfold bg_run. assert (∀ c : HistoryCache, c = ∅ → foldl bg_step c events = ∅) as Hrun.
  { induction events as [|we events IH]; intros c ->; simpl; [done|].
    apply IH. apply map_empty. intros i.
    eapply lookup_weaken_None; [|apply Hstep]. apply lookup_empty. }
  by apply Hrun.
Qed.

(** X9: a message whose action is one of the four the worker knows is
    answered exactly once and the listener keeps its channel open; any
    other message is dropped without answer and without effect. *)
Theorem onMessage_dispatch w message sender (historyCache : HistoryCache) :
  (msg_action message ∈ KNOWN_ACTIONS →
   keeps_channel (onMessage w message sender historyCache).2 = true
   ∧ length (responses (onMessage w message sender historyCache).2) = 1)
  ∧ (msg_action message ∉ KNOWN_ACTIONS →
     onMessage w message sender historyCache = (historyCache, no_effects)).
Proof.
  unfold KNOWN_ACTIONS, onMessage. split.
  - intros Hin. rewrite !elem_of_cons, elem_of_nil in Hin.
    repeat case_bool_decide; simpl; try done.
    + by destruct (handleCheckVisited_returns (w_storage w) (w_history w)
                     (msg_urls message) (w_order w)) as [r ->].
    + naive_solver.
  - intros Hnot. rewrite !not_elem_of_cons in Hnot.
    destruct Hnot as (? & ? & ? & ? & _).
    by rewrite !bool_decide_eq_false_2.
Qed.


(** X11: apart from [configUpdated], an event leaves alone the cache entry
    of every tab other than the one it names. *)
Theorem invalidation_is_local w e (historyCache : HistoryCache) t :
  (∀ message sender, e = MessageEvent message sender →
                     msg_action message ≠ "configUpdated") →
  event_tab e ≠ Some t →
  bg_step historyCache (w, e) !! t = historyCache !! t.
Proof.
  intros Hcfg Ht. unfold bg_step. cbn [fst snd]. destruct e as [m s|i|i]; simpl in *.
  - unfold onMessage. repeat case_bool_decide; simpl; try done.
    + by destruct (handleCheckVisited _ _ _ _).
    + by destruct (Hcfg m s eq_refl).
    + destruct (sender_tab s) as [tab|]; [|done]. simpl in Ht.
      destruct (tab_id tab) as [i|]; [|done].
      apply lookup_delete_ne. congruence.
  - unfold onActivated. destruct (w_get w i) as [[tab|]|]; simpl; try done.
    destruct (tab_url tab); [|done]. destruct (_ && _); simpl; [|done].
    apply lookup_delete_ne. congruence.
  - apply lookup_delete_ne. congruence.
Qed.

End background_properties.

(** * The content script *)

Lemma link_push_unfold k x (m : JsMap.t (list nat)) :
  LinkMap.push k x m
  = match m with
    | [] => [(k, [x])]
    | (k', xs) :: m' =>
        if decide (k' = k) then (k, xs ++ [x]) :: m' else (k', xs) :: LinkMap.push k x m'
    end.
Proof.
  unfold LinkMap.push, JsMap.has. destruct m as [|[k' xs] m'].
  { simpl. by destruct (decide (k = k)). }
  destruct (decide (k' = k)) as [->|Hne].
  - rewrite bool_decide_eq_true_2 by (simpl; left). simpl.
    by destruct (decide (k = k)).
  - assert (bool_decide (k ∈ ((k', xs) :: m').*1) = bool_decide (k ∈ m'.*1)) as ->.
    { apply bool_decide_ext. simpl. rewrite elem_of_cons. naive_solver. }
    destruct (bool_decide (k ∈ m'.*1)); cbn [negb].
    + rewrite get_cons_ne by done.
      destruct (JsMap.get k m'); [|done]. by rewrite set_cons_ne.
    + rewrite set_cons_ne, get_cons_ne by done.
      destruct (JsMap.get k (JsMap.set k [] m')); [|done]. by rewrite set_cons_ne.
Qed.

Lemma link_push_keys k x (m : JsMap.t (list nat)) :
  (LinkMap.push k x m).*1 = if decide (k ∈ m.*1) then m.*1 else m.*1 ++ [k].
Proof.
  induction m as [|[k' xs] m IH]; rewrite link_push_unfold.
  { case_decide as Hin; [by apply elem_of_nil in Hin|done]. }
  destruct (decide (k' = k)) as [->|Hne]; rewrite !fmap_cons; cbn [fst].
  - destruct (decide (k ∈ k :: m.*1)) as [|Hin]; [done|]. exfalso. apply Hin. left.
  - rewrite IH. repeat case_decide; try done; exfalso; set_solver.
Qed.

Lemma link_push_keys_NoDup k x (m : JsMap.t (list nat)) :
  NoDup m.*1 → NoDup (LinkMap.push k x m).*1.
Proof.
  intros Hnd. rewrite link_push_keys. case_decide as Hin; [done|].
  apply NoDup_app. split_and!; [done| |apply NoDup_singleton].
  intros y Hy ->%list_elem_of_singleton. done.
Qed.

Lemma get_cons_eq {V} k (v : V) m : JsMap.get k ((k, v) :: m) = Some v.
Proof. simpl. by destruct (decide (k = k)). Qed.

Lemma link_push_get_eq k x (m : JsMap.t (list nat)) :
  JsMap.get k (LinkMap.push k x m) = Some (default [] (JsMap.get k m) ++ [x]).
Proof.
  induction m as [|[k' xs] m IH]; rewrite link_push_unfold.
  { by rewrite get_cons_eq. }
  destruct (decide (k' = k)) as [->|Hne].
  - by rewrite !get_cons_eq.
  - by rewrite !get_cons_ne.
Qed.

Lemma link_push_get_ne u k x (m : JsMap.t (list nat)) :
  u ≠ k → JsMap.get u (LinkMap.push k x m) = JsMap.get u m.
Proof.
  intros Hu. induction m as [|[k' xs] m IH]; rewrite link_push_unfold.
  { by rewrite get_cons_ne. }
  destruct (decide (k' = k)) as [->|Hne].
  - by rewrite !get_cons_ne.
  - destruct (decide (k' = u)) as [->|Hne'].
    + by rewrite !get_cons_eq.
    + by rewrite !get_cons_ne.
Qed.

Lemma link_push_get u k x (m : JsMap.t (list nat)) :
  JsMap.get u (LinkMap.push k x m)
  = if decide (u = k) then Some (default [] (JsMap.get k m) ++ [x])
    else JsMap.get u m.
Proof.
  case_decide as Hu; [subst; apply link_push_get_eq|by apply link_push_get_ne].
Qed.

(** In a map with distinct keys, the entries are the lookups. *)
Lemma get_elem_of {V} u (v : V) (m : JsMap.t V) :
  NoDup m.*1 → (u, v) ∈ m ↔ JsMap.get u m = Some v.
Proof.
  induction m as [|[k' v'] m IH]; simpl.
  { intros _. split; [by intros ?%elem_of_nil|done]. }
  intros [Hk Hnd]%NoDup_cons. rewrite elem_of_cons, IH by done.
  destruct (decide (k' = u)) as [->|Hne].
  - split; [|naive_solver]. intros [[= -> ]|Hget]; [done|].
    exfalso. apply Hk. apply list_elem_of_fmap. exists (u, v). split; [done|].
    by apply IH.
  - naive_solver.
Qed.

Section content_properties.
Context `{!Platform}.

Lemma collectable_bool h : negb (skipped h) && parses h = true ↔ collectable h.
Proof.
  unfold collectable. rewrite andb_true_iff, negb_true_iff. done.
Qed.

(** One iteration of the scan. *)
Lemma collect_step linkMap anchor :
  (if skipped (href anchor) then linkMap
   else if negb (parses (href anchor)) then linkMap
   else LinkMap.push (href anchor) (elem anchor) linkMap)
  = if decide (collectable (href anchor))
    then LinkMap.push (href anchor) (elem anchor) linkMap else linkMap.
Proof.
  destruct (decide (collectable (href anchor))) as [[-> ->]|Hc]; [done|].
  destruct (skipped (href anchor)) eqn:Hs; [done|].
  destruct (parses (href anchor)) eqn:Hp; [|done].
  by destruct Hc.
Qed.

Lemma collect_keys_NoDup root m :
  NoDup m.*1 →
  NoDup (foldl (λ linkMap anchor,
                  if skipped (href anchor) then linkMap
                  else if negb (parses (href anchor)) then linkMap
                  else LinkMap.push (href anchor) (elem anchor) linkMap) m root).*1.
Proof.
  revert m. induction root as [|a root IH]; intros m Hnd; simpl; [done|].
  apply IH. rewrite collect_step. case_decide; [|done]. by apply link_push_keys_NoDup.
Qed.

Lemma collect_get root m u :
  JsMap.get u (foldl (λ linkMap anchor,
                        if skipped (href anchor) then linkMap
                        else if negb (parses (href anchor)) then linkMap
                        else LinkMap.push (href anchor) (elem anchor) linkMap) m root)
  = match JsMap.get u m, anchors_of root u with
    | None, [] => None
    | o, els => Some (default [] o ++ els)
    end.
Proof.
  unfold anchors_of. revert m. induction root as [|a root IH]; intros m.
  { rewrite filter_nil. simpl. destruct (JsMap.get u m); [|done].
    by rewrite (right_id_L [] (++)). }
  cbn [foldl]. rewrite IH, collect_step, filter_cons. clear IH.
  destruct (decide (collectable (href a))) as [Hc|Hc].
  - rewrite link_push_get. destruct (decide (u = href a)) as [->|Hne].
    + rewrite decide_True by done. rewrite fmap_cons.
      destruct (JsMap.get (href a) m); simpl; by rewrite <-?(assoc_L (++)).
    + rewrite decide_False by naive_solver. done.
  - rewrite decide_False by naive_solver. done.
Qed.

Lemma collectLinks_keys_NoDup root : NoDup (collectLinks root).*1.
Proof. apply collect_keys_NoDup. constructor. Qed.

Lemma collectLinks_get root u :
  JsMap.get u (collectLinks root)
  = (if decide (collectable u ∧ u ∈ href <$> root)
     then Some (elem <$> filter (λ a, href a = u) root) else None).
Proof.
  unfold collectLinks. rewrite collect_get. simpl. unfold anchors_of.
  case_decide as Hu.
  - destruct Hu as [Hc (a & Hhref & Ha)%list_elem_of_fmap]. symmetry in Hhref.
    assert (filter (λ a, href a = u ∧ collectable (href a)) root
            = filter (λ a, href a = u) root) as ->.
    { apply filter_ext_in. intros a' _. split; [naive_solver|]. by intros ->. }
    destruct (filter (λ a, href a = u) root) as [|a' l] eqn:Hf; [|done].
    exfalso. assert (a ∈ filter (λ a, href a = u) root) as Hin
      by by apply list_elem_of_filter.
    rewrite Hf in Hin. by apply elem_of_nil in Hin.
  - destruct (filter (λ a, href a = u ∧ collectable (href a)) root) as [|a l] eqn:Hf;
      [done|].
    exfalso. apply Hu.
    assert (a ∈ filter (λ a, href a = u ∧ collectable (href a)) root) as Hin
      by (rewrite Hf; left).
    apply list_elem_of_filter in Hin as [[<- Hc] Hin]. split; [done|].
    apply list_elem_of_fmap. by exists a.
Qed.


(** X13: the candidates the content script sends are pairwise different, so
    across the domain groups of [checkVisitedUrls] no candidate occurs
    twice. *)
Theorem collected_candidates_once root ignoreParams :
  NoDup (collectLinks root).*1
  ∧ NoDup (mjoin (domainGroups (collectLinks root).*1 ignoreParams).*2).
Proof.
  assert (NoDup (collectLinks root).*1) as Hnd.
  { apply collect_keys_NoDup. constructor. }
  split; [done|]. rewrite domainGroups_perm. by apply NoDup_filter.
Qed.

End content_properties.

(** ** One scan *)

Lemma fmap_ext_in {A B} (f g : A → B) (l : list A) :
  (∀ x, x ∈ l → f x = g x) → f <$> l = g <$> l.
Proof. intros Hfg. apply Forall_fmap_ext_1, Forall_forall. exact Hfg. Qed.

Lemma NoDup_fmap_inj_on {A B} (f : A → B) (l : list A) x y :
  NoDup (f <$> l) → x ∈ l → y ∈ l → f x = f y → x = y.
Proof.
  induction l as [|a l IH]; [by intros _ ?%elem_of_nil|].
  rewrite fmap_cons. intros [Ha Hnd]%NoDup_cons.
  intros [->|Hx]%elem_of_cons [->|Hy]%elem_of_cons Hf; try done.
  - exfalso. apply Ha. rewrite Hf. by apply list_elem_of_fmap_2.
  - exfalso. apply Ha. rewrite <-Hf. by apply list_elem_of_fmap_2.
  - by apply IH.
Qed.

Lemma link_push_filter_join (Q : string → Prop) `{!∀ k, Decision (Q k)} k x
    (m : list (string * list nat)) :
  mjoin ((filter (λ g, Q g.1) (LinkMap.push k x m : list (string * list nat))).*2)
  ≡ₚ mjoin ((filter (λ g, Q g.1) m).*2) ++ (if decide (Q k) then [x] else []).
Proof.
  induction m as [|[k' xs] m IH]; rewrite link_push_unfold; cbv beta iota.
  { rewrite filter_cons, !filter_nil. simpl. by case_decide. }
  destruct (decide (k' = k)) as [->|Hne]; rewrite !filter_cons; simpl.
  - destruct (decide (Q k)); simpl.
    + rewrite <-!(assoc_L (++)). f_equiv. apply Permutation_app_comm.
    + by rewrite (right_id_L [] (++)).
  - destruct (decide (Q k')); simpl; rewrite IH; [|done].
    by rewrite (assoc_L (++)).
Qed.

Section scan.
Context `{!Platform}.

Lemma collect_filter_join (Q : string → Prop) `{!∀ k, Decision (Q k)} root
    (m : list (string * list nat)) :
  mjoin ((filter (λ g, Q g.1)
            (foldl (λ linkMap anchor,
                      if skipped (href anchor) then linkMap
                      else if negb (parses (href anchor)) then linkMap
                      else LinkMap.push (href anchor) (elem anchor) linkMap)
                   m root)).*2)
  ≡ₚ mjoin ((filter (λ g, Q g.1) m).*2)
     ++ (elem <$> filter (λ a, collectable (href a) ∧ Q (href a)) root).
Proof.
  revert m. induction root as [|a root IH]; intros m.
  { rewrite filter_nil. simpl. by rewrite (right_id_L [] (++)). }
  cbn [foldl]. rewrite IH, collect_step, filter_cons. clear IH.
  destruct (decide (collectable (href a))) as [Hc|Hc].
  - rewrite link_push_filter_join. destruct (decide (Q (href a))).
    + rewrite decide_True by done. by rewrite fmap_cons, <-(assoc_L (++)).
    + rewrite decide_False by naive_solver. by rewrite (right_id_L [] (++)).
  - rewrite decide_False by naive_solver. done.
Qed.

(** The elements the link map holds under the references that satisfy [Q]
    are the elements of the collected anchors whose reference does. *)
Lemma collectLinks_filter_join (Q : string → Prop) `{!∀ k, Decision (Q k)} root :
  mjoin ((filter (λ g, Q g.1) (collectLinks root : list (string * list nat))).*2)
  ≡ₚ elem <$> filter (λ a, collectable (href a) ∧ Q (href a)) root.
Proof. unfold collectLinks. rewrite collect_filter_join. by rewrite filter_nil. Qed.

Lemma collectLinks_join root :
  mjoin (collectLinks root).*2
  ≡ₚ elem <$> filter (λ a, collectable (href a)) root.
Proof.
  etrans; [|etrans; [apply (collectLinks_filter_join (λ _, True))|]].
  - by rewrite filter_all.
  - erewrite filter_ext_in; [done|]. naive_solver.
Qed.

Lemma collectLinks_entry root u els :
  (u, els) ∈ collectLinks root
  ↔ collectable u ∧ u ∈ href <$> root ∧ els = elem <$> filter (λ a, href a = u) root.
Proof.
  pose proof (collectLinks_keys_NoDup root) as Hnd.
  rewrite get_elem_of, collectLinks_get by done. case_decide; naive_solver.
Qed.

Lemma collectLinks_marks (f : Anchor → Anchor) root :
  (∀ a, elem (f a) = elem a ∧ href (f a) = href a) →
  collectLinks (f <$> root) = collectLinks root.
Proof.
  intros Hf. unfold collectLinks. generalize (@nil (string * list nat)) as m.
  induction root as [|a root IH]; intros m; [done|].
  rewrite fmap_cons. cbn [foldl]. destruct (Hf a) as [-> ->]. apply IH.
Qed.

Lemma add_class_fold els d :
  foldl (λ d el, add_class el d) d els
  = (λ a, if bool_decide (elem a ∈ els) then with_mark true a else a) <$> d.
Proof.
  revert d. induction els as [|el els IH]; intros d; cbn [foldl].
  { rewrite <-(list_fmap_id d) at 1. apply fmap_ext_in. intros a _.
    rewrite bool_decide_eq_false_2; [done|]. apply not_elem_of_nil. }
  rewrite IH. unfold add_class. rewrite <-list_fmap_compose.
  apply fmap_ext_in. intros a _. simpl.
  destruct (bool_decide_reflect (elem a = el)) as [Heq|Hne]; simpl.
  - rewrite (bool_decide_eq_true_2 (elem a ∈ el :: els)) by (subst; left).
    by case_bool_decide.
  - rewrite (bool_decide_ext (elem a ∈ el :: els) (elem a ∈ els)); [done|].
    rewrite elem_of_cons. naive_solver.
Qed.

Lemma highlight_loop_acc (visited : list string) (linkMap : list (string * list nat)) d v t :
  foldl (λ (acc : list Anchor * nat * nat) (g : string * list nat),
           let totalCount := acc.2 + length g.2 in
           if bool_decide (g.1 ∈ visited) then
             (foldl (λ d el, add_class el d) acc.1.1 g.2,
              acc.1.2 + length g.2, totalCount)
           else (acc.1.1, acc.1.2, totalCount))
        (d, v, t) linkMap
  = ((λ a, if bool_decide (Exists (λ g, g.1 ∈ visited ∧ elem a ∈ g.2) linkMap)
           then with_mark true a else a) <$> d,
     v + length (mjoin ((filter (λ g, g.1 ∈ visited) linkMap).*2)),
     t + length (mjoin linkMap.*2)).
Proof.
  revert d v t. induction linkMap as [|[u els] linkMap IH]; intros d v t.
  { simpl. rewrite !Nat.add_0_r. f_equal. f_equal.
    rewrite <-(list_fmap_id d) at 1. by apply fmap_ext_in. }
  cbn [foldl fst snd]. rewrite filter_cons. cbn [fst].
  destruct (bool_decide_reflect (u ∈ visited)) as [Hu|Hu].
  - rewrite IH, add_class_fold, decide_True by done. simpl.
    rewrite !length_app. f_equal; [f_equal|]; try (by rewrite ?Nat.add_assoc).
    rewrite <-list_fmap_compose. apply fmap_ext_in. intros a _. simpl.
    destruct (bool_decide_reflect (elem a ∈ els)) as [Hin|Hin]; simpl.
    + rewrite (bool_decide_eq_true_2 (Exists _ ((u, els) :: linkMap)))
        by (by left).
      by case_bool_decide.
    + rewrite (bool_decide_ext (Exists _ ((u, els) :: linkMap))
                 (Exists (λ g, g.1 ∈ visited ∧ elem a ∈ g.2) linkMap)); [done|].
      rewrite Exists_cons. naive_solver.
  - rewrite IH, decide_False by done. simpl.
    rewrite ?length_app. f_equal; [f_equal|]; try (by rewrite ?Nat.add_assoc).
    apply fmap_ext_in. intros a _.
    rewrite (bool_decide_ext (Exists _ ((u, els) :: linkMap))
               (Exists (λ g, g.1 ∈ visited ∧ elem a ∈ g.2) linkMap)); [done|].
    rewrite Exists_cons. naive_solver.
Qed.

End scan.

Section scan_results.
Context `{!Platform}.

Lemma remarked_marked (P : Anchor → Prop) `{!∀ a, Decision (P a)} d :
  filter (λ a, marked a = true) (remarked P d) = remarked P (filter P d).
Proof.
  unfold remarked. induction d as [|a d IH]; [done|].
  rewrite fmap_cons, !filter_cons, IH. cbn [marked with_mark].
  destruct (decide (P a)) as [Ha|Ha].
  - rewrite fmap_cons, !(bool_decide_eq_true_2 (P a)) by done.
    by rewrite decide_True.
  - rewrite (bool_decide_eq_false_2 (P a)) by done. by rewrite decide_False.
Qed.

Lemma collectLinks_nonempty_groups root :
  Forall (λ g : string * list nat, g.2 ≠ []) (collectLinks root).
Proof.
  apply Forall_forall. intros [u els] (Hc & Hu & ->)%collectLinks_entry. simpl.
  apply list_elem_of_fmap in Hu as (a & -> & Ha).
  intros Hnil. apply fmap_nil_inv in Hnil.
  assert (a ∈ filter (λ a', href a' = href a) root) as Hin
    by by apply list_elem_of_filter.
  rewrite Hnil in Hin. by apply elem_of_nil in Hin.
Qed.

Lemma length_filter_and {A} (P Q : A → Prop) `{!∀ x, Decision (P x)}
    `{!∀ x, Decision (Q x)} (l : list A) :
  length (filter (λ x, P x ∧ Q x) l) ≤ length (filter P l).
Proof.
  induction l as [|x l IH]; [done|]. rewrite !filter_cons.
  destruct (decide (P x)), (decide (P x ∧ Q x)); simpl; try lia. naive_solver.
Qed.

Lemma length_join_nonempty {A} (ls : list (list A)) :
  Forall (λ l, l ≠ []) ls → length ls ≤ length (mjoin ls).
Proof.
  induction 1 as [|l ls Hl _ IH]; simpl; [done|].
  rewrite length_app. destruct l; [done|]. simpl. lia.
Qed.

(** What a call of [processLinks] that sends a request has done before
    its first [await]. *)
Lemma processLinks_start_sent runtime_id s s0 linkMap :
  processLinks_start runtime_id s = (s0, Some linkMap) →
  linkMap = collectLinks (dom s) ∧ linkMap ≠ [] ∧ isProcessing s = false
  ∧ s0 = mkContent (dom s) true (observing s) (text_color s).
Proof.
  unfold processLinks_start. destruct (isProcessing s); [by intros [=]|].
  destruct runtime_id; cbn [negb]; [|by intros [=]].
  case_bool_decide as Hlen; [by intros [=]|]. intros [= <- <-].
  split_and!; [done| |done..]. intros Hnil. apply Hlen. by rewrite Hnil.
Qed.

(** An element is in a group of a visited reference exactly when the scan
    collected it under such a reference. *)
Lemma scan_exists d (visited : list string) (el : nat) :
  Exists (λ g, g.1 ∈ visited ∧ el ∈ g.2) (collectLinks d)
  ↔ el ∈ visited_elements d visited.
Proof.
  unfold visited_elements. rewrite Exists_exists, list_elem_of_fmap. split.
  - intros ([u els] & (Hc & _ & ->)%collectLinks_entry & Hu & Hel). simpl in *.
    apply list_elem_of_fmap in Hel as (a & -> & Ha).
    apply list_elem_of_filter in Ha as [<- Ha].
    exists a. split; [done|]. by apply list_elem_of_filter.
  - intros (a & -> & [[Hc Hv] Ha]%list_elem_of_filter).
    exists (href a, elem <$> filter (λ a', href a' = href a) d).
    split_and!; [|done|].
    + apply collectLinks_entry. split_and!; [done| |done].
      by apply list_elem_of_fmap_2.
    + simpl. apply list_elem_of_fmap_2. by apply list_elem_of_filter.
Qed.

(** The scan from the answer on, when the feature is enabled: [d] is the
    document the request was built from, [s'] the page when the answer
    arrives. *)
Lemma resume_enabled d s' response :
  enabled (config response) = true →
  dom (processLinks_resume (collectLinks d) (Resolved (Some response)) s').1
  = remarked (λ a', elem a' ∈ visited_elements d (visitedUrls response)) (dom s')
  ∧ (processLinks_resume (collectLinks d) (Resolved (Some response)) s').2
    = [mkStats (length (visited_elements d (visitedUrls response)))
               (length (filter (λ a, collectable (href a)) d))].
Proof.
  intros Hen. unfold processLinks_resume. rewrite Hen. cbn [negb fst snd].
  unfold highlight_loop. rewrite highlight_loop_acc. cbn [fst snd dom isProcessing].
  unfold applyHighlightColors. cbn [dom isProcessing]. split.
  - unfold clearHighlights, remarked. rewrite <-list_fmap_compose.
    apply fmap_ext_in. intros a Ha. simpl.
    rewrite (bool_decide_ext _ _ (scan_exists d (visitedUrls response) (elem a))).
    by case_bool_decide.
  - f_equal. f_equal.
    + pose proof (collectLinks_filter_join (λ k, k ∈ visitedUrls response) d) as Hp.
      apply Permutation_length in Hp. exact Hp.
    + pose proof (collectLinks_join d) as Hp.
      apply Permutation_length in Hp. rewrite length_fmap in Hp. exact Hp.
Qed.

(** On a document whose anchors are different elements, the anchors of the
    visited elements are the collected anchors with a visited reference. *)
Lemma visited_elements_anchors d (visited : list string) :
  NoDup (elem <$> d) →
  filter (λ a', elem a' ∈ visited_elements d visited) d
  = filter (λ a, collectable (href a) ∧ href a ∈ visited) d.
Proof.
  intros Hnd. apply filter_ext_in. intros a' Ha'. unfold visited_elements.
  rewrite list_elem_of_fmap. split.
  - intros (a & Heq & [HP Ha]%list_elem_of_filter).
    assert (a' = a) as -> by by eapply NoDup_fmap_inj_on.
    done.
  - intros HP. exists a'. split; [done|]. by apply list_elem_of_filter.
Qed.

(** X14: when a call of [processLinks] has sent its request from the
    document [dom s] and the answer arrives on the page [s'], whose document
    may have changed in between, an enabled answer leaves marked exactly the
    anchors of the present document whose element the scan had collected
    under a reference of the visited list (every other mark is cleared, an
    anchor added since stays unmarked), and reports the numbers of collected
    visited and collected anchors of the scanned document; a disabled answer
    clears every mark and reports nothing.  The flag [isProcessing] is
    released at once when nothing is reported, and else when [updateStats]
    has settled. *)
Theorem processLinks_scan runtime_id s s0 linkMap s' response :
  processLinks_start runtime_id s = (s0, Some linkMap) →
  dom (processLinks_resume linkMap (Resolved (Some response)) s').1
  = (if enabled (config response)
     then remarked (λ a', elem a' ∈ visited_elements (dom s) (visitedUrls response))
                   (dom s')
     else clearHighlights (dom s'))
  ∧ (processLinks_resume linkMap (Resolved (Some response)) s').2
    = (if enabled (config response)
       then [mkStats (length (visited_elements (dom s) (visitedUrls response)))
                     (length (filter (λ a, collectable (href a)) (dom s)))]
       else [])
  ∧ isProcessing
      (if enabled (config response)
       then processLinks_finish
              (processLinks_resume linkMap (Resolved (Some response)) s').1
       else (processLinks_resume linkMap (Resolved (Some response)) s').1)
    = false.
Proof.
  intros (-> & _ & _ & _)%processLinks_start_sent.
  destruct (enabled (config response)) eqn:Hen.
  - destruct (resume_enabled (dom s) s' response Hen) as (Hdom & Hstats).
    by rewrite Hdom, Hstats.
  - unfold processLinks_resume. rewrite Hen. done.
Qed.

(** X17: when the anchors of the document are different elements and the
    document is the same when the answer arrives as when the request was
    sent, then after an enabled scan [getStats] answers the visited count
    that [updateStats] reported, but as total the number of distinct
    references, which is at most the number of anchors [updateStats]
    reported; the visited count is at most the latter. *)
Theorem getStats_after_scan runtime_id s s0 linkMap s' response :
  processLinks_start runtime_id s = (s0, Some linkMap) →
  dom s' = dom s →
  NoDup (elem <$> dom s) →
  enabled (config response) = true →
  ∃ v t, (processLinks_resume linkMap (Resolved (Some response)) s').2
         = [mkStats v t]
         ∧ getStats (dom (processLinks_resume linkMap (Resolved (Some response))
                            s').1)
           = mkStats v (length linkMap)
         ∧ length linkMap ≤ t
         ∧ v ≤ t.
Proof.
  intros (-> & _ & _ & _)%processLinks_start_sent Hsame Hnd Hen.
  destruct (resume_enabled (dom s) s' response Hen) as (Hdom & Hstats).
  rewrite Hstats, Hdom, Hsame. eexists _, _. split; [done|]. split_and!.
  - unfold getStats. f_equal.
    + rewrite remarked_marked. unfold remarked. rewrite length_fmap.
      rewrite visited_elements_anchors by done. unfold visited_elements.
      by rewrite length_fmap.
    + unfold remarked. by rewrite collectLinks_marks.
  - pose proof (collectLinks_join (dom s)) as Hp. apply Permutation_length in Hp.
    rewrite length_fmap in Hp. rewrite <-Hp, <-(length_fmap snd).
    apply length_join_nonempty, Forall_fmap, collectLinks_nonempty_groups.
  - unfold visited_elements. rewrite length_fmap. apply length_filter_and.
Qed.

End scan_results.

(** ** Scans in flight, and clicks *)

Section page_events.
Context `{!Platform}.

Lemma content_step_flight sp e :
  length sp.2 ≤ 1 ∧ (isProcessing sp.1 = true ↔ sp.2 ≠ []) →
  length (content_step sp e).2 ≤ 1
  ∧ (isProcessing (content_step sp e).1 = true ↔ (content_step sp e).2 ≠ []).
Proof.
  destruct sp as [s p]. cbn [fst snd]. intros [Hlen Hflag].
  destruct e as [rt|reply| |target|d]; cbn [content_step fst snd].
  - unfold processLinks_start. destruct (isProcessing s) eqn:Hp.
    { simpl. rewrite (right_id_L [] (++)), Hp. done. }
    assert (p = []) as ->.
    { destruct p; [done|]. exfalso. by assert (false = true) by by apply Hflag. }
    destruct rt; simpl; [|split; [lia|done]].
    case_bool_decide; simpl; (split; [lia|done]).
  - destruct p as [|[linkMap|] rest]; [done| |done].
    assert (rest = []) as -> by (destruct rest; [done|simpl in Hlen; lia]).
    assert (isProcessing s = true) as Hp by by apply Hflag.
    unfold processLinks_resume.
    destruct reply as [message|[response|]].
    + destruct (default false _); simpl; (split; [lia|done]).
    + destruct (enabled (config response)); simpl.
      * rewrite Hp. split; [lia|done].
      * split; [lia|done].
    + simpl. split; [lia|done].
  - destruct p as [|[linkMap|] rest]; [done|done|].
    assert (rest = []) as -> by (destruct rest; [done|simpl in Hlen; lia]).
    simpl. split; [lia|done].
  - done.
  - done.
Qed.

(** X15: over every run of triggers, answers, clicks and document changes
    from a fresh page, at most one call of [processLinks] is in flight, and
    the flag [isProcessing] is set exactly while one is: a trigger that comes
    in meanwhile sends no second request, and every way a call ends releases
    the flag. *)
Theorem content_single_flight d events :
  length (content_run d events).2 ≤ 1
  ∧ (isProcessing (content_run d events).1 = true ↔ (content_run d events).2 ≠ []).
Proof.
  unfold content_run.
  assert (∀ sp, length sp.2 ≤ 1 ∧ (isProcessing sp.1 = true ↔ sp.2 ≠ []) →
                length (foldl content_step sp events).2 ≤ 1
                ∧ (isProcessing (foldl content_step sp events).1 = true
                   ↔ (foldl content_step sp events).2 ≠ [])) as Hrun.
  { induction events as [|e events IH]; intros sp Hsp; [done|].
    cbn [foldl]. by apply IH, content_step_flight. }
  apply Hrun. simpl. split; [lia|done].
Qed.

(** X16: a click on an anchor that is not marked yet and whose reference the
    scan would collect marks that anchor and every anchor with the same
    reference, and nothing else; a click anywhere else, or on an anchor that
    is marked already, changes nothing. *)
Theorem handleLinkClick_marks target d :
  (∀ t a0, target = Some t → head (filter (λ a, elem a = t) d) = Some a0 →
           marked a0 = false → collectable (href a0) →
     handleLinkClick target d
     = (λ a, if bool_decide (elem a = t ∨ href a = href a0)
             then with_mark true a else a) <$> d)
  ∧ ((∀ t a0, target = Some t → head (filter (λ a, elem a = t) d) = Some a0 →
              marked a0 = true ∨ ¬ collectable (href a0)) →
     handleLinkClick target d = d).
Proof.
  unfold handleLinkClick. split.
  - intros t a0 -> Hhead Hm [Hs Hp]. cbn [mbind option_bind]. rewrite Hhead, Hm, Hs, Hp.
    cbn [negb]. unfold add_class. rewrite <-list_fmap_compose.
    assert (elem a0 = t) as Ht.
    { apply head_Some_elem_of in Hhead. by apply list_elem_of_filter in Hhead as [? _]. }
    apply fmap_ext_in. intros a _. simpl. rewrite Ht.
    destruct (bool_decide_reflect (elem a = t)) as [He|He]; simpl.
    + rewrite (bool_decide_eq_true_2 (elem a = t ∨ href a = href a0)) by (by left).
      destruct (bool_decide (href a = href a0) && false); by destruct a.
    + destruct (bool_decide_reflect (href a = href a0)) as [Hh|Hh]; simpl.
      * rewrite (bool_decide_eq_true_2 (elem a = t ∨ href a = href a0)) by (by right).
        destruct (marked a) eqn:Hma; simpl; [|done]. destruct a; simpl in *; by subst.
      * rewrite (bool_decide_eq_false_2 (elem a = t ∨ href a = href a0))
          by naive_solver.
        done.
  - intros Hno. destruct target as [t|]; cbn [mbind option_bind]; [|done].
    destruct (head (filter (λ a, elem a = t) d)) as [a0|] eqn:Hhead; [|done].
    destruct (Hno t a0 eq_refl Hhead) as [Hm|Hc].
    + by rewrite Hm.
    + destruct (marked a0); [done|]. destruct (skipped (href a0)) eqn:Hs; [done|].
      destruct (parses (href a0)) eqn:Hp; [|done]. by destruct Hc.
Qed.

End page_events.

(** ** Worker and page scenarios on the reference platform *)

Lemma normalizeUrl_keeps_domain_witness :
  isValidHttpUrl (normalizeUrl "https://x.com/a?utm_source=1&b=2" ["utm_source"])
    = isValidHttpUrl "https://x.com/a?utm_source=1&b=2"
  ∧ extractDomain (normalizeUrl "https://x.com/a?utm_source=1&b=2" ["utm_source"])
    = extractDomain "https://x.com/a?utm_source=1&b=2".
Proof.
  apply (normalizeUrl_keeps_domain (H := ref_platform)).
  exact RefLaws.ref_href_reparses.
Defined.

Lemma normalizeUrl_ignore_more_witness :
  normalizeUrl (normalizeUrl "https://x.com/a?ref=9&utm_source=1&b=2" ["utm_source"])
               ["utm_source"; "ref"]
  = normalizeUrl "https://x.com/a?ref=9&utm_source=1&b=2" ["utm_source"; "ref"]
  ∧ ∀ url', normalizeUrl "https://x.com/a?ref=9&utm_source=1&b=2" ["utm_source"]
            = normalizeUrl url' ["utm_source"] →
            normalizeUrl "https://x.com/a?ref=9&utm_source=1&b=2" ["utm_source"; "ref"]
            = normalizeUrl url' ["utm_source"; "ref"].
Proof.
  apply (normalizeUrl_ignore_more (H := ref_platform)).
  - set_solver.
  - exact RefLaws.ref_href_reparses.
  - exact RefLaws.ref_urlencoded_roundtrip.
  - exact RefLaws.ref_urlencoded_parse_empty.
Defined.

Lemma normalizeUrl_ignore_set_witness :
  normalizeUrl "https://x.com/a?Ref=9&utm_source=1&b=2" ["utm_source"; "ref"]
  = normalizeUrl "https://x.com/a?Ref=9&utm_source=1&b=2" ["REF"; "Utm_Source"; "ref"].
Proof.
  apply (normalizeUrl_ignore_set (H := ref_platform)).
  intros x.
  assert (toLowerCase <$> ["utm_source"; "ref"] = ["utm_source"; "ref"]) as ->
    by reflexivity.
  assert (toLowerCase <$> ["REF"; "Utm_Source"; "ref"] = ["ref"; "utm_source"; "ref"])
    as -> by reflexivity.
  set_solver.
Defined.

Lemma normalizeUrl_sorted_witness :
  ∃ r1, url_parse (normalizeUrl "https://x.com/a?ref=9&utm_source=1&b=2" ["utm_source"])
        = Some r1
        ∧ StronglySorted name_le (query_list r1).
Proof.
  eapply (normalizeUrl_sorted (H := ref_platform)).
  - exact RefLaws.ref_href_reparses.
  - exact RefLaws.ref_urlencoded_roundtrip.
  - exact RefLaws.ref_urlencoded_parse_empty.
  - by vm_compute.
  - by apply is_http_https.
Defined.

Lemma checkVisitedUrls_one_search_per_domain_witness :
  NoDup (checkVisitedUrls demo_history demo_urls ["utm_source"] [1; 0]).2
  ∧ ∀ q, q ∈ (checkVisitedUrls demo_history demo_urls ["utm_source"] [1; 0]).2
         ↔ maxResults q = 10000%N ∧ startTime q = 0%N
           ∧ ∃ u, u ∈ demo_urls ∧ isValidHttpUrl u = true
                  ∧ extractDomain u = Some (text q).
Proof.
  apply (checkVisitedUrls_one_search_per_domain (H := ref_platform)).
  exact RefLaws.ref_special_host_nonempty.
Defined.

Lemma checkVisitedUrls_order_irrelevant_witness :
  (checkVisitedUrls demo_history demo_urls ["utm_source"] [1; 0]).1
    ≡ₚ (checkVisitedUrls demo_history demo_urls ["utm_source"] [0; 1]).1
  ∧ (checkVisitedUrls demo_history demo_urls ["utm_source"] [1; 0]).2
    = (checkVisitedUrls demo_history demo_urls ["utm_source"] [0; 1]).2.
Proof.
  apply (checkVisitedUrls_order_irrelevant (H := ref_platform)).
  - vm_compute. apply perm_swap.
  - by vm_compute.
Defined.

Lemma checkVisitedUrls_ignore_more_witness :
  "https://x.com/a" ∈ (checkVisitedUrls demo_history demo_urls ["utm_source"] [1; 0]).1.
Proof.
  apply (checkVisitedUrls_ignore_more (H := ref_platform) demo_history demo_urls
           [] ["utm_source"] [1; 0]).
  - set_solver.
  - exact RefLaws.ref_href_reparses.
  - exact RefLaws.ref_urlencoded_roundtrip.
  - exact RefLaws.ref_urlencoded_parse_empty.
  - vm_compute. apply perm_swap.
  - assert ((checkVisitedUrls demo_history demo_urls [] [1; 0]).1
            = ["https://x.com/a"; "https://x.com/list?b=2&a=1"]) as -> by by vm_compute.
    left.
Defined.


Lemma invalidation_is_local_witness :
  bg_step demo_cache (demo_world, RemovedEvent 7) !! 8 = demo_cache !! 8.
Proof.
  apply (invalidation_is_local (H := ref_platform)).
  - by intros message sender [=].
  - by intros [=].
Defined.

Lemma processLinks_scan_witness :
  dom (processLinks_resume (collectLinks demo_page) (Resolved (Some demo_response))
                           demo_content_later).1
  = [mkAnchor 1 "https://x.com/a" true; mkAnchor 2 "https://x.com/b" false;
     mkAnchor 3 "https://x.com/a" true; mkAnchor 4 "javascript:void(0)" false;
     mkAnchor 5 "https://y.com/" false; mkAnchor 6 "mailto:me@x.com" false;
     mkAnchor 7 "https://x.com/a" false]
  ∧ (processLinks_resume (collectLinks demo_page) (Resolved (Some demo_response))
                         demo_content_later).2 = [mkStats 2 5].
Proof.
  destruct (processLinks_scan (H := ref_platform) true demo_content
              demo_content_waiting (collectLinks demo_page) demo_content_later
              demo_response)
    as (Hdom & Hstats & _).
  - reflexivity.
  - rewrite Hdom, Hstats. split; reflexivity.
Defined.

Lemma getStats_after_scan_witness :
  (processLinks_resume (collectLinks demo_page) (Resolved (Some demo_response))
                       demo_content_waiting).2 = [mkStats 2 5]
  ∧ getStats (dom (processLinks_resume (collectLinks demo_page)
                     (Resolved (Some demo_response)) demo_content_waiting).1)
    = mkStats 2 4.
Proof.
  destruct (getStats_after_scan (H := ref_platform) true demo_content
              demo_content_waiting (collectLinks demo_page) demo_content_waiting
              demo_response)
    as (v & t & Hstats & Hget & _).
  - reflexivity.
  - reflexivity.
  - by apply (bool_decide_unpack _).
  - reflexivity.
  - assert ((processLinks_resume (collectLinks demo_page)
               (Resolved (Some demo_response)) demo_content_waiting).2
            = [mkStats 2 5]) as Hsent by reflexivity.
    rewrite Hsent in Hstats. injection Hstats as <- <-.
    split; [done|]. rewrite Hget. reflexivity.
Defined.

Lemma onMessage_dispatch_witness :
  (keeps_channel (onMessage demo_world (mkMessage "getConfig" None) (mkSender None)
                            demo_cache).2 = true
   ∧ length (responses (onMessage demo_world (mkMessage "getConfig" None)
                                  (mkSender None) demo_cache).2) = 1)
  ∧ onMessage demo_world (mkMessage "ping" None) (mkSender None) demo_cache
    = (demo_cache, no_effects).
Proof.
  split.
  - apply (onMessage_dispatch (H := ref_platform)).
    by apply (bool_decide_unpack _).
  - apply (onMessage_dispatch (H := ref_platform)).
    by apply (bool_decide_unpack _).
Defined.

Lemma handleLinkClick_marks_witness :
  handleLinkClick (Some 1) demo_page
  = [mkAnchor 1 "https://x.com/a" true; mkAnchor 2 "https://x.com/b" true;
     mkAnchor 3 "https://x.com/a" true; mkAnchor 4 "javascript:void(0)" false;
     mkAnchor 5 "https://y.com/" false; mkAnchor 6 "mailto:me@x.com" true]
  ∧ handleLinkClick (Some 4) demo_page = demo_page.
Proof.
  split.
  - rewrite (proj1 (handleLinkClick_marks (H := ref_platform) (Some 1) demo_page)
               1 (mkAnchor 1 "https://x.com/a" false)); try reflexivity.
    by vm_compute.
  - apply (handleLinkClick_marks (H := ref_platform)).
    intros t a0 [= <-] [= <-]. right. intros [Hs _]. by vm_compute in Hs.
Defined.
